(** * bin/vite-ts-tw.js: the project scaffolding script

    A shallow embedding of the script and the properties of its setup
    sequence: argument validation, the six external commands, the two
    text patches, the yes/no prompt and the exit status.

    JavaScript strings are sequences of UTF-16 code units; they are
    modelled as lists of code units ([N]). Literals of the source are
    written with [js], which maps each character of an ASCII literal to
    its code unit. *)

From stdpp Require Import gmap list strings.
From Stdlib Require Import ZArith NArith Lia.

Local Open Scope N_scope.

(** ** JavaScript strings *)

Abbreviation JSString := (list N).

Fixpoint js (s : string) : JSString :=
  match s with
  | EmptyString => []
  | String a s' => Ascii.N_of_ascii a :: js s'
  end.

(** The double quote and the line feed, which a literal cannot hold. *)
Definition dq : N := 34.
Definition lf : N := 10.

(** *** String.prototype.replace with a pattern of literal characters

    [startsWith p s]: the pattern [p] matches at the start of [s]. *)
Fixpoint startsWith (p s : JSString) : bool :=
  match p, s with
  | [], _ => true
  | _ :: _, [] => false
  | a :: p', b :: s' => if a =? b then startsWith p' s' else false
  end.

(** A regular expression without the global flag replaces the leftmost
    match only; without a match the string is returned as it is. *)
Fixpoint replaceFirst (pat repl s : JSString) : JSString :=
  if startsWith pat s then repl ++ drop (length pat) s
  else match s with
       | [] => []
       | c :: s' => c :: replaceFirst pat repl s'
       end.

(** Number of positions of [s] at which [pat] matches. *)
Fixpoint occurrences (pat s : JSString) : nat :=
  ((if startsWith pat s then 1 else 0) +
   match s with
   | [] => 0
   | _ :: s' => occurrences pat s'
   end)%nat.

(** [clash x y]: [x] and [y] differ at a position both have. *)
Fixpoint clash (x y : JSString) : bool :=
  match x, y with
  | a :: x', b :: y' => if a =? b then clash x' y' else true
  | _, _ => false
  end.

Fixpoint tails (s : JSString) : list JSString :=
  match s with
  | [] => []
  | _ :: s' => s :: tails s'
  end.

(** [stable pat repl]: decidable condition under which putting [repl] in
    the place of a match of the non-empty [pat] creates no new match
    that touches the inserted text: no match starts inside [repl], and no
    proper suffix of [pat] can run into the start of [repl]. *)
Definition stable (pat repl : JSString) : bool :=
  (0 <? length pat)%nat &&
  forallb (clash pat) (tails repl) &&
  forallb (fun t => clash t repl) (tail (tails pat)).

(** [unbordered pat]: two matches of [pat] never overlap. *)
Definition unbordered (pat : JSString) : bool :=
  forallb (clash pat) (tail (tails pat)).

(** *** String.prototype.trim and toLowerCase *)

(** WhiteSpace and LineTerminator code points of ECMAScript; all of them
    are single code units. *)
Definition isWhiteSpace (c : N) : bool :=
  (9 <=? c) && (c <=? 13) || (c =? 32) || (c =? 160) || (c =? 5760) ||
  (8192 <=? c) && (c <=? 8202) || (c =? 8232) || (c =? 8233) ||
  (c =? 8239) || (c =? 8287) || (c =? 12288) || (c =? 65279).

Fixpoint trimStart (s : JSString) : JSString :=
  match s with
  | [] => []
  | c :: s' => if isWhiteSpace c then trimStart s' else s
  end.

Fixpoint trimEnd (s : JSString) : JSString :=
  match s with
  | [] => []
  | c :: s' =>
      match trimEnd s' with
      | [] => if isWhiteSpace c then [] else [c]
      | t => c :: t
      end
  end.

Definition trim (s : JSString) : JSString := trimEnd (trimStart s).

(** Lower-casing of the letters A-Z. Code units outside ASCII are left
    as they are: the script only compares the result with the one-letter
    string y, and Y is the only code point that Unicode lower-cases to
    y. *)
Definition lowerUnit (c : N) : N :=
  if (65 <=? c) && (c <=? 90) then c + 32 else c.

Definition toLowerCase (s : JSString) : JSString := map lowerUnit s.

(** Strict equality of two strings. *)
Fixpoint strictEq (a b : JSString) : bool :=
  match a, b with
  | [], [] => true
  | x :: a', y :: b' => (x =? y) && strictEq a' b'
  | _, _ => false
  end.

(** ** The text of the two patches *)

(** The regular expression of [updateTailwindConfig]: the escaped
    brackets match the two bracket characters, so the pattern is the
    literal text below. *)
Definition CONTENT_PATTERN : JSString := js "content: []".

(** The replacement template; it holds no dollar sign, so it is inserted
    verbatim. *)
Definition CONTENT_REPLACEMENT : JSString :=
  js "content: [" ++ [dq] ++ js "./index.html" ++ [dq] ++ js ", " ++
  [dq] ++ js "./src/**/*.{js,ts,jsx,tsx}" ++ [dq] ++ js "]".

Definition updateConfigText (data : JSString) : JSString :=
  replaceFirst CONTENT_PATTERN CONTENT_REPLACEMENT data.

Definition IMPORT_BASE : JSString := js "@import 'tailwindcss/base';".
Definition IMPORT_COMPONENTS : JSString := js "@import 'tailwindcss/components';".
Definition IMPORT_UTILITIES : JSString := js "@import 'tailwindcss/utilities';".

(** The template literal of [updateIndexCss]. *)
Definition updateCssText (data : JSString) : JSString :=
  IMPORT_BASE ++ [lf] ++ IMPORT_COMPONENTS ++ [lf] ++
  IMPORT_UTILITIES ++ [lf] ++ [lf] ++ data.

(** ** The world outside the script *)

(** What the environment answers in one run: whether each command line
    succeeds and what it does to the files, which paths can be written,
    and the lines available on standard input. *)
Record World := {
  cmd_ok : JSString → bool;
  cmd_effect : JSString → gmap JSString JSString → gmap JSString JSString;
  writable : JSString → bool;
  stdin_lines : list JSString;
}.

(** Errors thrown by [execSync], [readFileSync] and [writeFileSync]. *)
Inductive Exn :=
| ExecError (command : JSString)
| ReadError (path : JSString)
| WriteError (path : JSString).

(** Console messages, one per call site (the colours are dropped). *)
Inductive Msg :=
| MsgEnterDirName
| MsgCreating
| MsgFailedExec (command : JSString) (error : Exn)
| MsgProjectFailed
| MsgProjectCreated
| MsgTailwindInstallFailed
| MsgTailwindInstalled
| MsgTailwindInitFailed
| MsgTailwindInitialized
| MsgConfigUpdated
| MsgConfigError (err : Exn)
| MsgCssUpdated
| MsgCssError (err : Exn)
| MsgEmptyLine
| MsgGitSkipped
| MsgGitInitFailed
| MsgGitInitialized
| MsgBranchFailed
| MsgBranchChanged
| MsgDepsFailed
| MsgDepsInstalled
| MsgBlankLines
| MsgArt
| MsgSuccess.

(** Calls that reach outside the process, in the order they are made. *)
Inductive Event :=
| EvExec (command : JSString)
| EvRead (path : JSString)
| EvWrite (path content : JSString)
| EvCreateInterface
| EvQuestion
| EvClose
| EvLog (m : Msg)
| EvError (m : Msg).

Record State := {
  files : gmap JSString JSString;
  trace : list Event;
  pending : bool;   (* a question waits for a line *)
}.

Definition emit (e : Event) (st : State) : State :=
  {| files := files st; trace := trace st ++ [e]; pending := pending st |}.

Definition setFiles (f : gmap JSString JSString) (st : State) : State :=
  {| files := f; trace := trace st; pending := pending st |}.

Definition setPending (b : bool) (st : State) : State :=
  {| files := files st; trace := trace st; pending := b |}.

(** The process starts with the files on disk and nothing printed. *)
Definition initialState (fs0 : gmap JSString JSString) : State :=
  {| files := fs0; trace := []; pending := false |}.

(** ** A monad for the script: state, exceptions and process.exit *)

Inductive Res (A : Type) :=
| Val (a : A)
| Thrown (e : Exn)
| Exit (code : Z).
Arguments Val {A} a.
Arguments Thrown {A} e.
Arguments Exit {A} code.

Definition M (A : Type) : Type := State → Res A * State.

Definition ret {A} (a : A) : M A := fun st => (Val a, st).

Definition bind {A B} (m : M A) (k : A → M B) : M B :=
  fun st =>
    match m st with
    | (Val a, st') => k a st'
    | (Thrown e, st') => (Thrown e, st')
    | (Exit c, st') => (Exit c, st')
    end.

Declare Scope js_scope.
Delimit Scope js_scope with js_m.
Notation "x <- m ;; k" := (bind m (fun x => k))
  (at level 100, m at next level, right associativity) : js_scope.
Notation "m ;; k" := (bind m (fun _ => k))
  (at level 100, right associativity) : js_scope.
Local Open Scope js_scope.

(** [process.exit] ends the process at once: nothing after it runs and
    no handler catches it. *)
Definition process_exit {A} (code : Z) : M A := fun st => (Exit code, st).

(** try { body } catch (e) { handler e } *)
Definition tryCatch {A} (body : M A) (handler : Exn → M A) : M A :=
  fun st =>
    match body st with
    | (Thrown e, st') => handler e st'
    | r => r
    end.

Definition effect (e : Event) : M unit := fun st => (Val tt, emit e st).
Definition console_log (m : Msg) : M unit := effect (EvLog m).
Definition console_error (m : Msg) : M unit := effect (EvError m).

(** ** The script *)

(** A value spliced into a template literal: an absent argument prints
    as the word undefined. *)
Definition templateValue (v : option JSString) : JSString :=
  match v with
  | Some s => s
  | None => js "undefined"
  end.

(** The truth value of [!v]: only the absent and the empty string are
    falsy. *)
Definition falsy (v : option JSString) : bool :=
  match v with
  | None => true
  | Some [] => true
  | Some (_ :: _) => false
  end.

Record Commands := {
  INSTALL_VITE_TS : JSString;
  INSTALL_TAILWIND : JSString;
  INITIALIZE_TAILWIND : JSString;
  INITIALIZE_GIT : JSString;
  CHANGE_BRANCH : JSString;
  INSTALL_DEPENDENCIES : JSString;
}.

Section Script.

Variable w : World.

(** [process.argv[2]] *)
Variable enteredDirName : option JSString.

Definition RUN_COMMAND : Commands := {|
  INSTALL_VITE_TS :=
    js "npm init vite@latest " ++ templateValue enteredDirName ++
    js " -- --template react-ts";
  INSTALL_TAILWIND :=
    js "cd " ++ templateValue enteredDirName ++
    js " && npm install -D tailwindcss postcss autoprefixer";
  INITIALIZE_TAILWIND :=
    js "cd " ++ templateValue enteredDirName ++
    js " && npx tailwindcss init -p --ts";
  INITIALIZE_GIT :=
    js "cd " ++ templateValue enteredDirName ++ js " && git init";
  CHANGE_BRANCH :=
    js "cd " ++ templateValue enteredDirName ++ js " && git branch -M main";
  INSTALL_DEPENDENCIES :=
    js "cd " ++ templateValue enteredDirName ++ js " && npm install";
|}.

(** *** Calls into the Node library *)

Definition execSync (command : JSString) : M unit :=
  fun st =>
    let st' := setFiles (cmd_effect w command (files st))
                        (emit (EvExec command) st) in
    if cmd_ok w command then (Val tt, st')
    else (Thrown (ExecError command), st').

Definition readFileSync (path : JSString) : M JSString :=
  fun st =>
    match files st !! path with
    | Some data => (Val data, emit (EvRead path) st)
    | None => (Thrown (ReadError path), emit (EvRead path) st)
    end.

Definition writeFileSync (path content : JSString) : M unit :=
  fun st =>
    let st' := emit (EvWrite path content) st in
    if writable w path
    then (Val tt, setFiles (<[path := content]> (files st)) st')
    else (Thrown (WriteError path), st').

Definition createInterface : M unit := effect EvCreateInterface.

(** [rl.question]: prints the query and registers the callback. *)
Definition rl_question : M unit :=
  fun st => (Val tt, setPending true (emit EvQuestion st)).

Definition rl_close : M unit :=
  fun st => (Val tt, setPending false (emit EvClose st)).

(** *** The functions of the script *)

Definition execCommand (command : JSString) : M bool :=
  tryCatch
    (execSync command ;; ret true)
    (fun error =>
       console_error (MsgFailedExec command error) ;; ret false).

Definition continueSetup : M unit :=
  ok <- execCommand (INSTALL_DEPENDENCIES RUN_COMMAND) ;;
  (if negb ok then console_error MsgDepsFailed
   else console_log MsgDepsInstalled) ;;
  console_log MsgBlankLines ;;
  console_log MsgArt ;;
  console_log MsgSuccess ;;
  process_exit 0.

Definition executeGitInitialization : M unit :=
  ok <- execCommand (INITIALIZE_GIT RUN_COMMAND) ;;
  (if negb ok then
     (console_error MsgGitInitFailed ;; process_exit (-1))
   else console_log MsgGitInitialized) ;;
  ok' <- execCommand (CHANGE_BRANCH RUN_COMMAND) ;;
  if negb ok' then console_error MsgBranchFailed
  else (console_log MsgBranchChanged ;; continueSetup).

Definition shouldInitializeGit (answer : JSString) : bool :=
  strictEq (toLowerCase (trim answer)) (js "y") ||
  strictEq (trim answer) (js "").

(** The arrow function that [promptUser] hands to [rl.question]. *)
Definition questionCallback (answer : JSString) : M unit :=
  rl_close ;;
  if shouldInitializeGit answer then executeGitInitialization
  else (console_log MsgGitSkipped ;; continueSetup).

Definition promptUser : M unit :=
  console_log MsgEmptyLine ;;
  rl_question.

Definition indexCssFilePath : JSString :=
  templateValue enteredDirName ++ js "/src/index.css".

(** [callback] is [Some f] when the argument is a function. *)
Definition updateIndexCss (callback : option (M unit)) : M unit :=
  tryCatch
    (data <- readFileSync indexCssFilePath ;;
     writeFileSync indexCssFilePath (updateCssText data) ;;
     console_log MsgCssUpdated ;;
     match callback with
     | Some f => f
     | None => ret tt
     end)
    (fun err => console_error (MsgCssError err) ;; process_exit (-1)).

Definition configFilePath : JSString :=
  templateValue enteredDirName ++ js "/tailwind.config.ts".

Definition updateTailwindConfig (callback : option (M unit)) : M unit :=
  tryCatch
    (data <- readFileSync configFilePath ;;
     writeFileSync configFilePath (updateConfigText data) ;;
     console_log MsgConfigUpdated ;;
     updateIndexCss callback)
    (fun err => console_error (MsgConfigError err) ;; process_exit (-1)).

Definition executeTailwindInitialization (callback : option (M unit))
  : M unit :=
  ok <- execCommand (INITIALIZE_TAILWIND RUN_COMMAND) ;;
  if negb ok then
    (console_error MsgTailwindInitFailed ;; process_exit (-1))
  else
    (console_log MsgTailwindInitialized ;; updateTailwindConfig callback).

(** The top level of the module, from the first line to the last. *)
Definition script : M unit :=
  (if falsy enteredDirName then
     (console_log MsgEnterDirName ;; process_exit (-1))
   else ret tt) ;;
  createInterface ;;
  console_log MsgCreating ;;
  ok <- execCommand (INSTALL_VITE_TS RUN_COMMAND) ;;
  (if negb ok then console_error MsgProjectFailed
   else console_log MsgProjectCreated) ;;
  ok' <- execCommand (INSTALL_TAILWIND RUN_COMMAND) ;;
  (if negb ok' then console_error MsgTailwindInstallFailed
   else console_log MsgTailwindInstalled) ;;
  executeTailwindInitialization (Some promptUser).

(** *** The process *)

Inductive Outcome :=
| Exited (code : Z)      (* process.exit was called *)
| Drained                (* the script returned and nothing is pending *)
| Uncaught (e : Exn).    (* an exception reached the top level *)

(** After the script has run, every line of standard input is handed
    to the pending question, as long as there is one. *)
Fixpoint eventLoop (lines : list JSString) (st : State)
  : Outcome * State :=
  if pending st then
    match lines with
    | [] => (Drained, st)
    | answer :: rest =>
        match questionCallback answer (setPending false st) with
        | (Val _, st') => eventLoop rest st'
        | (Thrown e, st') => (Uncaught e, st')
        | (Exit c, st') => (Exited c, st')
        end
    end
  else (Drained, st).

Definition run (fs0 : gmap JSString JSString) : Outcome * State :=
  match script (initialState fs0) with
  | (Val _, st) => eventLoop (stdin_lines w) st
  | (Thrown e, st) => (Uncaught e, st)
  | (Exit c, st) => (Exited c, st)
  end.

End Script.

(** The status the operating system sees: the argument of
    [process.exit], 0 when the process ends with nothing left to do, 1
    after an uncaught exception. *)
Definition exitStatus (o : Outcome) : Z :=
  match o with
  | Exited c => c
  | Drained => 0
  | Uncaught _ => 1
  end.

(** ** Vocabulary of the properties *)

Definition isCommandCall (e : Event) : bool :=
  match e with
  | EvExec _ => true
  | _ => false
  end.

Definition isFileOp (e : Event) : bool :=
  match e with
  | EvRead _ | EvWrite _ _ => true
  | _ => false
  end.

Definition isExternalCall (e : Event) : bool :=
  isCommandCall e || isFileOp e.

Definition isQuestion (e : Event) : bool :=
  match e with
  | EvQuestion => true
  | _ => false
  end.

(** The last three console calls of [continueSetup]. *)
Definition banner : list Event :=
  [EvLog MsgBlankLines; EvLog MsgArt; EvLog MsgSuccess].

(** The run ends with the completion banner. *)
Definition printsBanner (tr : list Event) : Prop :=
  ∃ before, tr = before ++ banner.

(** What [execCommand] prints when the command fails. *)
Definition failureReport (command : JSString) : Event :=
  EvError (MsgFailedExec command (ExecError command)).

(** [s] holds [pat] after [pre] and before [suf]. *)
Definition occursAt (pat s pre suf : JSString) : Prop :=
  s = pre ++ pat ++ suf.

Definition occursIn (pat s : JSString) : Prop :=
  ∃ pre suf, occursAt pat s pre suf.

(** The occurrence after [pre] is the leftmost one. *)
Definition firstOccurrence (pat s pre suf : JSString) : Prop :=
  occursAt pat s pre suf ∧
  ∀ pre' suf', occursAt pat s pre' suf' → (length pre ≤ length pre')%nat.

(** No match of [pat] starts inside [pre] when [rest] follows it: a
    check by computation that an occurrence is the leftmost one. *)
Fixpoint matchFreePrefix (pat pre rest : JSString) : bool :=
  match pre with
  | [] => true
  | _ :: pre' =>
      negb (startsWith pat (pre ++ rest)) && matchFreePrefix pat pre' rest
  end.

(** Lines joined by line feeds. *)
Fixpoint joinLines (ls : list JSString) : JSString :=
  match ls with
  | [] => []
  | [l] => l
  | l :: ls' => l ++ [lf] ++ joinLines ls'
  end.

(** The files on disk when the two patches start: what the first three
    commands leave behind. *)
Definition setupFiles (w : World) (dir : option JSString)
  (fs0 : gmap JSString JSString) : gmap JSString JSString :=
  cmd_effect w (INITIALIZE_TAILWIND (RUN_COMMAND dir))
    (cmd_effect w (INSTALL_TAILWIND (RUN_COMMAND dir))
       (cmd_effect w (INSTALL_VITE_TS (RUN_COMMAND dir)) fs0)).

(** [readFileSync] of [path] would throw. *)
Definition missing (fs : gmap JSString JSString) (path : JSString) : bool :=
  match fs !! path with
  | Some _ => false
  | None => true
  end.

(** One of the four file accesses of the two patches fails. *)
Definition patchIoError (w : World) (dir : option JSString)
  (fs0 : gmap JSString JSString) : bool :=
  missing (setupFiles w dir fs0) (configFilePath dir) ||
  negb (writable w (configFilePath dir)) ||
  missing (setupFiles w dir fs0) (indexCssFilePath dir) ||
  negb (writable w (indexCssFilePath dir)).

(** The first line of standard input asks for the repository. *)
Definition answersYes (w : World) : bool :=
  match stdin_lines w with
  | [] => false
  | answer :: _ => shouldInitializeGit answer
  end.

(** *** Sample worlds *)

Definition sampleDir : option JSString := Some (js "app").

(** The configuration file as the styling tool writes it, in short. *)
Definition sampleConfig : JSString := js "export default { content: [], }".

(** A configuration file that names the empty list in a comment too. *)
Definition commentedConfig : JSString :=
  js "// content: [] lists no file" ++ [lf] ++ sampleConfig.

(** Every command of [failing] fails, the others succeed; the project
    generator leaves a stylesheet, the styling tool a configuration file
    with an empty content list; every path can be written. *)
Definition sampleWorld (failing lines : list JSString) : World := {|
  cmd_ok := fun c => negb (existsb (strictEq c) failing);
  cmd_effect := fun c fs =>
    if strictEq c (INSTALL_VITE_TS (RUN_COMMAND sampleDir)) then
      <[indexCssFilePath sampleDir := js "body{}"]> fs
    else if strictEq c (INITIALIZE_TAILWIND (RUN_COMMAND sampleDir)) then
      <[configFilePath sampleDir := sampleConfig]> fs
    else fs;
  writable := fun _ => true;
  stdin_lines := lines;
|}.

(** *** The sentences of the specification that the script does not
    follow, as they are written *)

(** Only three conditions end the run with a non-zero status. *)
Definition onlyThreeFatal (w : World) (dir : option JSString)
  (fs0 : gmap JSString JSString) : Prop :=
  exitStatus (run w dir fs0).1 ≠ 0%Z →
  falsy dir = true ∨
  cmd_ok w (INITIALIZE_TAILWIND (RUN_COMMAND dir)) = false ∨
  patchIoError w dir fs0 = true.

(** A failing repository initialization, every other command
    succeeding, still ends with the banner and status 0. *)
Definition vcsFailureStillCompletes (w : World) (dir : option JSString)
  (fs0 : gmap JSString JSString) : Prop :=
  EvExec (INITIALIZE_GIT (RUN_COMMAND dir)) ∈ trace (run w dir fs0).2 →
  cmd_ok w (INITIALIZE_GIT (RUN_COMMAND dir)) = false →
  (∀ c, c ≠ INITIALIZE_GIT (RUN_COMMAND dir) → cmd_ok w c = true) →
  printsBanner (trace (run w dir fs0).2) ∧
  exitStatus (run w dir fs0).1 = 0%Z.

(** A failing branch rename is reported, then the setup continues. *)
Definition renameFailureContinues (w : World) (dir : option JSString)
  (fs0 : gmap JSString JSString) : Prop :=
  EvExec (CHANGE_BRANCH (RUN_COMMAND dir)) ∈ trace (run w dir fs0).2 →
  cmd_ok w (CHANGE_BRANCH (RUN_COMMAND dir)) = false →
  EvError MsgBranchFailed ∈ trace (run w dir fs0).2 ∧
  EvExec (INSTALL_DEPENDENCIES (RUN_COMMAND dir)) ∈ trace (run w dir fs0).2 ∧
  printsBanner (trace (run w dir fs0).2) ∧
  exitStatus (run w dir fs0).1 = 0%Z.

(** Patching the configuration text twice is patching it once. *)
Definition configPatchIdempotentAt (data : JSString) : Prop :=
  updateConfigText (updateConfigText data) = updateConfigText data.

(** The three replies select the repository, every other reply skips. *)
Definition replySelectsLiterally (answer : JSString) : Prop :=
  shouldInitializeGit answer = true ↔
  answer = js "" ∨ answer = js "y" ∨ answer = js "Y".

(** ** Vocabulary of the further properties *)

(** The command lines handed to [execSync], in the order of the calls. *)
Fixpoint commandsRun (tr : list Event) : list JSString :=
  match tr with
  | [] => []
  | EvExec c :: tr' => c :: commandsRun tr'
  | _ :: tr' => commandsRun tr'
  end.

(** The six entries of [RUN_COMMAND], in the order the script uses
    them. *)
Definition commandTable (dir : option JSString) : list JSString :=
  [INSTALL_VITE_TS (RUN_COMMAND dir);
   INSTALL_TAILWIND (RUN_COMMAND dir);
   INITIALIZE_TAILWIND (RUN_COMMAND dir);
   INITIALIZE_GIT (RUN_COMMAND dir);
   CHANGE_BRANCH (RUN_COMMAND dir);
   INSTALL_DEPENDENCIES (RUN_COMMAND dir)].

(** The text of a file, empty when the file is not there. *)
Definition contentAt (fs : gmap JSString JSString) (path : JSString)
  : JSString :=
  match fs !! path with
  | Some data => data
  | None => []
  end.

(** What [updateIndexCss] puts in front of the stylesheet. *)
Definition cssHeader : JSString := updateCssText [].

Definition isCreateInterface (e : Event) : bool :=
  match e with
  | EvCreateInterface => true
  | _ => false
  end.

Definition isClose (e : Event) : bool :=
  match e with
  | EvClose => true
  | _ => false
  end.

(** The file accesses of a run in which both patches succeed. *)
Definition patchAccesses (w : World) (dir : option JSString)
  (fs0 : gmap JSString JSString) : list Event :=
  [EvRead (configFilePath dir);
   EvWrite (configFilePath dir)
     (updateConfigText (contentAt (setupFiles w dir fs0) (configFilePath dir)));
   EvRead (indexCssFilePath dir);
   EvWrite (indexCssFilePath dir)
     (updateCssText (contentAt (setupFiles w dir fs0) (indexCssFilePath dir)))].

Definition isErrorReport (e : Event) : bool :=
  match e with
  | EvError _ => true
  | _ => false
  end.

(** * Properties *)

(** ** Matching and replacing *)

Lemma startsWith_app (p t : JSString) : startsWith p (p ++ t) = true.
Proof.
  induction p as [|a p IH]; simpl; [reflexivity|].
  now rewrite N.eqb_refl.
Qed.

Lemma startsWith_inv (p s : JSString) :
  startsWith p s = true → s = p ++ drop (length p) s.
Proof.
  revert s; induction p as [|a p IH]; intros [|b s]; simpl; try done.
  destruct (N.eqb_spec a b) as [->|]; [|done].
  intros H. f_equal. now apply IH.
Qed.

Lemma startsWith_occursAt (p s : JSString) :
  startsWith p s = true ↔ ∃ suf, occursAt p s [] suf.
Proof.
  split.
  - intros H. exists (drop (length p) s). red. simpl.
    now apply startsWith_inv.
  - intros [suf H]. red in H. simpl in H. subst s. apply startsWith_app.
Qed.

Lemma occursIn_cons (p : JSString) c (s : JSString) :
  occursIn p s → occursIn p (c :: s).
Proof. intros (pre & suf & ->). now exists (c :: pre), suf. Qed.

Lemma replaceFirst_match (pat repl s : JSString) :
  startsWith pat s = true →
  replaceFirst pat repl s = repl ++ drop (length pat) s.
Proof. intros H. destruct s; simpl; now rewrite H. Qed.

Lemma replaceFirst_skip (pat repl : JSString) c (s : JSString) :
  startsWith pat (c :: s) = false →
  replaceFirst pat repl (c :: s) = c :: replaceFirst pat repl s.
Proof. intros H. cbn [replaceFirst]. now rewrite H. Qed.

Lemma replaceFirst_first (pat repl s pre suf : JSString) :
  firstOccurrence pat s pre suf →
  replaceFirst pat repl s = pre ++ repl ++ suf.
Proof.
  revert s; induction pre as [|a pre IH]; intros s [Hocc Hmin].
  - red in Hocc; simpl in Hocc; subst s.
    rewrite replaceFirst_match by apply startsWith_app.
    now rewrite drop_app_length.
  - red in Hocc; simpl in Hocc; subst s.
    assert (startsWith pat (a :: pre ++ pat ++ suf) = false) as Hno.
    { destruct (startsWith pat _) eqn:E; [|reflexivity].
      apply startsWith_occursAt in E as [suf' E].
      specialize (Hmin [] suf' E). simpl in Hmin. lia. }
    simpl app. rewrite replaceFirst_skip by exact Hno. f_equal.
    apply IH. split; [reflexivity|].
    intros pre' suf' E.
    specialize (Hmin (a :: pre') suf'). simpl in Hmin.
    red in E. rewrite E in Hmin. specialize (Hmin eq_refl). lia.
Qed.

Lemma replaceFirst_absent (pat repl s : JSString) :
  ¬ occursIn pat s → replaceFirst pat repl s = s.
Proof.
  induction s as [|c s IH]; intros Hno.
  - destruct pat; [|reflexivity].
    exfalso. apply Hno. now exists [], [].
  - assert (startsWith pat (c :: s) = false) as E.
    { destruct (startsWith pat _) eqn:E; [|reflexivity].
      exfalso. apply Hno. apply startsWith_occursAt in E as [suf E].
      now exists [], suf. }
    rewrite replaceFirst_skip by exact E. f_equal. apply IH.
    intros H. apply Hno. now apply occursIn_cons.
Qed.

Lemma occurrences_zero (pat s : JSString) :
  occurrences pat s = 0%nat ↔ ¬ occursIn pat s.
Proof.
  induction s as [|c s IH].
  - simpl. destruct pat; simpl; split; try done.
    + intros H. exfalso. apply H. now exists [], [].
    + intros _ (pre & suf & H). red in H. now destruct pre.
  - cbn [occurrences]. destruct (startsWith pat (c :: s)) eqn:E.
    + split; [lia|]. intros H. exfalso. apply H.
      apply startsWith_occursAt in E as [suf E]. now exists [], suf.
    + rewrite Nat.add_0_l, IH. split.
      * intros Hs (pre & suf & H). red in H. destruct pre as [|a pre].
        -- simpl in H. rewrite H, startsWith_app in E. discriminate.
        -- simpl in H. injection H as -> H. apply Hs. now exists pre, suf.
      * intros Hs H. apply Hs. now apply occursIn_cons.
Qed.

Lemma clash_startsWith (x y t : JSString) :
  clash x y = true → startsWith x (y ++ t) = false.
Proof.
  revert y; induction x as [|a x IH]; intros [|b y]; simpl; try done.
  destruct (a =? b); [apply IH | reflexivity].
Qed.

Lemma startsWith_boundary (x q Y Z : JSString) :
  startsWith q (x ++ Y) = true →
  startsWith q (x ++ Z) = true ∨
  ((length x < length q)%nat ∧ startsWith (drop (length x) q) Y = true).
Proof.
  revert q; induction x as [|a x IH]; intros [|b q]; simpl; auto.
  - intros H. right. split; [lia | exact H].
  - destruct (b =? a); [|discriminate].
    intros H. destruct (IH q H) as [H'|[Hlen H']]; [now left|].
    right. split; [lia | exact H'].
Qed.

Lemma drop_in_tails (s : JSString) (k : nat) :
  (k < length s)%nat → In (drop k s) (tails s).
Proof.
  revert k; induction s as [|c s IH]; intros k Hk; simpl in *; [lia|].
  destruct k as [|k]; [now left|].
  right. apply IH. lia.
Qed.

Lemma drop_in_proper_tails (s : JSString) (k : nat) :
  (0 < k < length s)%nat → In (drop k s) (tail (tails s)).
Proof.
  destruct s as [|c s], k as [|k]; simpl; try lia.
  intros Hk. apply drop_in_tails. lia.
Qed.

Lemma firstOccurrence_tail (pat : JSString) a (s pre suf : JSString) :
  firstOccurrence pat (a :: s) (a :: pre) suf →
  firstOccurrence pat s pre suf.
Proof.
  intros [Hocc Hmin]. red in Hocc. simpl in Hocc.
  injection Hocc as ->. split; [reflexivity|].
  intros pre' suf' E. red in E.
  specialize (Hmin (a :: pre') suf'). simpl in Hmin.
  rewrite E in Hmin. specialize (Hmin eq_refl). lia.
Qed.

Lemma firstOccurrence_no_earlier (pat : JSString) a (s pre suf : JSString) :
  firstOccurrence pat s (a :: pre) suf → startsWith pat s = false.
Proof.
  intros [_ Hmin]. destruct (startsWith pat s) eqn:E; [|reflexivity].
  apply startsWith_occursAt in E as [suf' E].
  specialize (Hmin [] suf' E). simpl in Hmin. lia.
Qed.

Lemma firstOccurrence_exists (pat s : JSString) :
  occursIn pat s → ∃ pre suf, firstOccurrence pat s pre suf.
Proof.
  induction s as [|c s IH]; intros Hin.
  - destruct Hin as (pre & suf & H). exists pre, suf. split; [exact H|].
    red in H. destruct pre; [simpl; lia | discriminate].
  - destruct (startsWith pat (c :: s)) eqn:E.
    + apply startsWith_occursAt in E as [suf E].
      exists [], suf. split; [exact E | simpl; lia].
    + destruct IH as (pre & suf & Hocc & Hmin).
      { destruct Hin as (pre & suf & H). red in H.
        destruct pre as [|a pre]; simpl in H.
        - rewrite H, startsWith_app in E. discriminate.
        - injection H as -> H. now exists pre, suf. }
      exists (c :: pre), suf. split.
      * red. simpl. now rewrite <- Hocc.
      * intros pre' suf' H. red in H. destruct pre' as [|a pre'].
        -- simpl in H. rewrite H, startsWith_app in E. discriminate.
        -- simpl in H. injection H as -> H.
           specialize (Hmin pre' suf' H). simpl. lia.
Qed.

Lemma occurrences_pos (pat s : JSString) :
  occurrences pat s ≠ 0%nat → occursIn pat s.
Proof.
  induction s as [|c s IH]; cbn [occurrences].
  - destruct (startsWith pat []) eqn:E; [|lia].
    intros _. apply startsWith_occursAt in E as [suf E]. now exists [], suf.
  - destruct (startsWith pat (c :: s)) eqn:E.
    + intros _. apply startsWith_occursAt in E as [suf E].
      now exists [], suf.
    + intros H. apply occursIn_cons, IH. lia.
Qed.

Lemma occurrences_app_ge (pat x s : JSString) :
  (occurrences pat s ≤ occurrences pat (x ++ s))%nat.
Proof.
  induction x as [|a x IH]; [reflexivity|].
  simpl app. cbn [occurrences]. lia.
Qed.

Lemma occurrences_drop_le (pat s : JSString) (k : nat) :
  (occurrences pat (drop k s) ≤ occurrences pat s)%nat.
Proof.
  rewrite <- (take_drop k s) at 2. apply occurrences_app_ge.
Qed.

Lemma occurrences_match_ge (pat s : JSString) :
  startsWith pat s = true → (0 < length pat)%nat →
  (1 + occurrences pat (drop (length pat) s) ≤ occurrences pat s)%nat.
Proof.
  intros E Hne. destruct s as [|c s].
  - destruct pat; [simpl in Hne; lia | discriminate].
  - cbn [occurrences]. rewrite E.
    destruct pat as [|b p]; [simpl in Hne; lia|].
    simpl length. simpl drop.
    pose proof (occurrences_drop_le (b :: p) s (length p)). lia.
Qed.

Lemma occurrences_through (pat x suf : JSString) :
  (∀ t, In t (tails x) → clash pat t = true) →
  occurrences pat (x ++ suf) = occurrences pat suf.
Proof.
  induction x as [|c x IH]; intros H; [reflexivity|].
  pose proof (clash_startsWith pat (c :: x) suf
                (H _ (or_introl eq_refl))) as E.
  simpl app in *. cbn [occurrences]. rewrite E.
  rewrite IH; [reflexivity|]. intros t Ht. apply H. now right.
Qed.

Lemma occurrences_match_eq (pat s : JSString) :
  startsWith pat s = true → (0 < length pat)%nat → unbordered pat = true →
  occurrences pat s = (1 + occurrences pat (drop (length pat) s))%nat.
Proof.
  intros E Hne Hunb. apply startsWith_inv in E as Hs.
  set (suf := drop (length pat) s) in *. clearbody suf. subst s.
  unfold unbordered in Hunb. rewrite forallb_forall in Hunb.
  destruct pat as [|b p]; [simpl in Hne; lia|].
  simpl app in *. cbn [occurrences]. rewrite E. f_equal.
  apply occurrences_through. intros t Ht. apply Hunb.
  simpl. destruct p; [destruct Ht | exact Ht].
Qed.

Section Stable.

Variables pat repl : JSString.
Hypothesis Hstable : stable pat repl = true.

Lemma stable_nonempty : (0 < length pat)%nat.
Proof.
  unfold stable in Hstable.
  apply andb_prop in Hstable as [H _]. apply andb_prop in H as [H _].
  now apply Nat.ltb_lt in H.
Qed.

Lemma stable_inside (t : JSString) :
  In t (tails repl) → clash pat t = true.
Proof.
  unfold stable in Hstable.
  apply andb_prop in Hstable as [H _]. apply andb_prop in H as [_ H].
  rewrite forallb_forall in H. apply H.
Qed.

Lemma stable_border (t : JSString) :
  In t (tail (tails pat)) → clash t repl = true.
Proof.
  unfold stable in Hstable.
  apply andb_prop in Hstable as [_ H].
  rewrite forallb_forall in H. apply H.
Qed.

(** No match starts inside a text all of whose tails clash with the
    pattern. *)
Lemma replaceFirst_through (r x suf : JSString) :
  (∀ t, In t (tails x) → clash pat t = true) →
  replaceFirst pat r (x ++ suf) = x ++ replaceFirst pat r suf.
Proof.
  induction x as [|c x IH]; intros H; [reflexivity|].
  simpl app. rewrite replaceFirst_skip.
  - f_equal. apply IH. intros t Ht. apply H. now right.
  - apply (clash_startsWith pat (c :: x) suf). apply H. now left.
Qed.

(** After a replacement of the leftmost match, the next match, if any,
    lies in the text that followed it. *)
Lemma replaceFirst_after (r s pre suf : JSString) :
  firstOccurrence pat s pre suf →
  replaceFirst pat r (pre ++ repl ++ suf) =
  pre ++ repl ++ replaceFirst pat r suf.
Proof.
  revert s; induction pre as [|a pre IH]; intros s Hfirst.
  - simpl. apply replaceFirst_through, stable_inside.
  - pose proof Hfirst as [Hocc _]. red in Hocc. subst s.
    simpl app. rewrite replaceFirst_skip.
    + f_equal. apply (IH (pre ++ pat ++ suf)).
      now apply firstOccurrence_tail with a.
    + destruct (startsWith pat (a :: pre ++ repl ++ suf)) eqn:E;
        [|reflexivity].
      apply (startsWith_boundary (a :: pre) pat (repl ++ suf) (pat ++ suf))
        in E as [E|[Hlen E]].
      * apply firstOccurrence_no_earlier in Hfirst. congruence.
      * rewrite clash_startsWith in E; [discriminate|].
        apply stable_border, drop_in_proper_tails. simpl in *. lia.
Qed.

Lemma replaceFirst_twice (s pre suf : JSString) :
  firstOccurrence pat s pre suf →
  replaceFirst pat repl (replaceFirst pat repl s) =
  pre ++ repl ++ replaceFirst pat repl suf.
Proof.
  intros H. rewrite (replaceFirst_first pat repl s pre suf H).
  now apply replaceFirst_after with s.
Qed.

Lemma occurrences_first_ge (s pre suf : JSString) :
  occursAt pat s pre suf →
  (1 + occurrences pat suf ≤ occurrences pat s)%nat.
Proof.
  intros ->. etrans; [|apply occurrences_app_ge].
  pose proof (occurrences_match_ge pat (pat ++ suf)
                (startsWith_app pat suf) stable_nonempty) as H.
  now rewrite drop_app_length in H.
Qed.

Lemma replaceFirst_idempotent (s : JSString) :
  (occurrences pat s ≤ 1)%nat →
  replaceFirst pat repl (replaceFirst pat repl s) = replaceFirst pat repl s.
Proof.
  intros Hle. destruct (occurrences pat s) as [|n] eqn:E.
  - apply occurrences_zero in E.
    now rewrite !(replaceFirst_absent pat repl s E).
  - assert (occursIn pat s) as Hin by (apply occurrences_pos; lia).
    destruct (firstOccurrence_exists pat s Hin) as (pre & suf & Hfirst).
    rewrite (replaceFirst_twice s pre suf Hfirst).
    rewrite (replaceFirst_first pat repl s pre suf Hfirst).
    pose proof (occurrences_first_ge s pre suf (proj1 Hfirst)).
    rewrite replaceFirst_absent; [reflexivity|].
    apply occurrences_zero. lia.
Qed.

Hypothesis Hunbordered : unbordered pat = true.

Lemma occurrences_first_eq (s pre suf : JSString) :
  firstOccurrence pat s pre suf →
  occurrences pat s = (1 + occurrences pat suf)%nat.
Proof.
  revert s; induction pre as [|a pre IH]; intros s Hfirst.
  - destruct Hfirst as [-> _]. simpl app.
    rewrite (occurrences_match_eq pat (pat ++ suf)
               (startsWith_app pat suf) stable_nonempty Hunbordered).
    now rewrite drop_app_length.
  - pose proof (firstOccurrence_no_earlier _ _ _ _ _ Hfirst) as E.
    pose proof Hfirst as [Hocc _]. red in Hocc. subst s.
    simpl app in *. cbn [occurrences]. rewrite E. simpl.
    apply IH. now apply firstOccurrence_tail with a.
Qed.

Lemma clash_irrefl (x : JSString) : clash x x = false.
Proof. induction x as [|a x IH]; simpl; [|rewrite N.eqb_refl]; done. Qed.

Lemma stable_differ : repl ≠ pat.
Proof.
  intros E. pose proof stable_nonempty as Hne.
  assert (clash pat repl = true) as H.
  { apply stable_inside. rewrite E. destruct pat; [simpl in Hne; lia|].
    now left. }
  rewrite E, clash_irrefl in H. discriminate.
Qed.

Lemma replaceFirst_changes (s : JSString) :
  occursIn pat s → replaceFirst pat repl s ≠ s.
Proof.
  intros Hin.
  destruct (firstOccurrence_exists pat s Hin) as (pre & suf & Hfirst).
  rewrite (replaceFirst_first pat repl s pre suf Hfirst).
  destruct Hfirst as [-> _]. intros E.
  apply app_inv_head, app_inv_tail in E. now apply stable_differ.
Qed.

Lemma replaceFirst_idempotent_iff (s : JSString) :
  replaceFirst pat repl (replaceFirst pat repl s) = replaceFirst pat repl s
  ↔ (occurrences pat s ≤ 1)%nat.
Proof.
  split; [|apply replaceFirst_idempotent].
  intros Heq. destruct (le_lt_dec (occurrences pat s) 1) as [|Hgt]; [done|].
  exfalso.
  assert (occursIn pat s) as Hin by (apply occurrences_pos; lia).
  destruct (firstOccurrence_exists pat s Hin) as (pre & suf & Hfirst).
  rewrite (replaceFirst_twice s pre suf Hfirst) in Heq.
  rewrite (replaceFirst_first pat repl s pre suf Hfirst) in Heq.
  apply app_inv_head, app_inv_head in Heq.
  apply (replaceFirst_changes suf); [|exact Heq].
  apply occurrences_pos. rewrite (occurrences_first_eq s pre suf Hfirst) in Hgt.
  lia.
Qed.

End Stable.

Lemma content_stable : stable CONTENT_PATTERN CONTENT_REPLACEMENT = true.
Proof. reflexivity. Qed.

Lemma content_unbordered : unbordered CONTENT_PATTERN = true.
Proof. reflexivity. Qed.


Lemma firstOccurrence_check (pat pre suf : JSString) :
  matchFreePrefix pat pre (pat ++ suf) = true →
  firstOccurrence pat (pre ++ pat ++ suf) pre suf.
Proof.
  induction pre as [|c pre IH]; simpl.
  - intros _. split; [reflexivity | simpl; lia].
  - intros H. apply andb_prop in H as [Hno H].
    apply negb_true_iff in Hno.
    destruct (IH H) as [_ Hmin]. split; [reflexivity|].
    intros [|c' pre'] suf' E; red in E; simpl in E.
    + rewrite E, startsWith_app in Hno. discriminate.
    + injection E as <- E. specialize (Hmin pre' suf' E). simpl. lia.
Qed.

(** ** The two patches *)

Lemma updateIndexCss_never_throws w dir cb st e st' :
  updateIndexCss w dir cb st ≠ (Thrown e, st').
Proof.
  unfold updateIndexCss, tryCatch, bind, readFileSync, writeFileSync,
    console_log, console_error, effect, process_exit.
  destruct (files st !! indexCssFilePath dir); [|discriminate].
  destruct (writable w (indexCssFilePath dir)); [|discriminate].
  destruct cb as [f|]; [|discriminate].
  now destruct (f _) as [[?|?|?] ?].
Qed.

Lemma paths_distinct dir : configFilePath dir ≠ indexCssFilePath dir.
Proof.
  unfold configFilePath, indexCssFilePath. intros E.
  apply app_inv_head in E. discriminate E.
Qed.

(** ** Trimming and the reply *)

Lemma strictEq_eq (a b : JSString) : strictEq a b = true ↔ a = b.
Proof.
  revert b; induction a as [|x a IH]; intros [|y b]; simpl; try done.
  rewrite andb_true_iff, N.eqb_eq, IH. split.
  - now intros [-> ->].
  - intros H. now injection H.
Qed.

Lemma trimStart_spaces (ws s : JSString) :
  forallb isWhiteSpace ws = true → trimStart (ws ++ s) = trimStart s.
Proof.
  induction ws as [|c ws IH]; simpl; [done|].
  intros H. apply andb_prop in H as [-> H]. now apply IH.
Qed.

Lemma trimEnd_spaces (ws : JSString) :
  forallb isWhiteSpace ws = true → trimEnd ws = [].
Proof.
  induction ws as [|c ws IH]; simpl; [done|].
  intros H. apply andb_prop in H as [-> H]. now rewrite IH.
Qed.

Lemma trimEnd_app_spaces (s ws : JSString) :
  forallb isWhiteSpace ws = true → trimEnd (s ++ ws) = trimEnd s.
Proof.
  intros H. induction s as [|c s IH]; simpl.
  - now apply trimEnd_spaces.
  - now rewrite IH.
Qed.

Lemma trim_padded (before after : JSString) (c : N) :
  forallb isWhiteSpace before = true → forallb isWhiteSpace after = true →
  isWhiteSpace c = false →
  trim (before ++ [c] ++ after) = [c].
Proof.
  intros Hb Ha Hc. unfold trim. rewrite trimStart_spaces by exact Hb.
  simpl. rewrite Hc. simpl. rewrite trimEnd_spaces by exact Ha.
  now rewrite Hc.
Qed.

Lemma trim_spaces (before after : JSString) :
  forallb isWhiteSpace before = true → forallb isWhiteSpace after = true →
  trim (before ++ after) = [].
Proof.
  intros Hb Ha. unfold trim. rewrite trimStart_spaces by exact Hb.
  assert (trimStart after = []) as ->; [|reflexivity].
  induction after as [|c ws IH]; simpl in *; [done|].
  apply andb_prop in Ha as [-> Ha]. now apply IH.
Qed.

Lemma lowerUnit_y (c : N) : lowerUnit c = 121 ↔ c = 121 ∨ c = 89.
Proof.
  unfold lowerUnit.
  destruct (N.leb_spec 65 c), (N.leb_spec c 90); simpl; lia.
Qed.

Lemma toLowerCase_y (s : JSString) :
  toLowerCase s = js "y" ↔ s = js "y" ∨ s = js "Y".
Proof.
  change (js "y") with [121]. change (js "Y") with [89].
  destruct s as [|c [|c' s]]; simpl.
  - split; [done | now intros [|]].
  - split.
    + intros H. injection H as H. apply lowerUnit_y in H as [->| ->]; auto.
    + intros [H|H]; injection H as ->; reflexivity.
  - split; [done | now intros [|]].
Qed.

Lemma shouldInitializeGit_iff (answer : JSString) :
  shouldInitializeGit answer = true ↔
  trim answer = js "" ∨ trim answer = js "y" ∨ trim answer = js "Y".
Proof.
  unfold shouldInitializeGit.
  rewrite orb_true_iff, !strictEq_eq, toLowerCase_y. tauto.
Qed.

(** C6. For every content [data] of the configuration file: the patch
    puts the two-element list of paths in the place of the leftmost
    empty content list; when the text holds no empty content list it is
    left as it is. The file is written in both cases, with the patched
    text, and the script goes on to the stylesheet. When the file cannot
    be read or cannot be written the script exits with status -1 and the
    files are as they were. The text looked for and the text written are
    spelled out: the 55 code units written are the word content, a
    colon, a space and, between brackets, the quoted path of
    index.html, a comma, a space and the quoted pattern of the source
    files (34 is the double quote). *)
Theorem config_patch (w : World) (dir : option JSString)
  (cb : option (M unit)) (st : State) (data : JSString) :
  let p := configFilePath dir in
  let written : JSString :=
    [99; 111; 110; 116; 101; 110; 116; 58; 32; 91;
              34; 46; 47; 105; 110; 100; 101; 120; 46; 104; 116; 109; 108; 34;
              44; 32;
              34; 46; 47; 115; 114; 99; 47; 42; 42; 47; 42; 46; 123; 106; 115;
              44; 116; 115; 44; 106; 115; 120; 44; 116; 115; 120; 125; 34;
              93] in
  written =
    js "content: [" ++ [34] ++ js "./index.html" ++ [34] ++ js ", " ++
    [34] ++ js "./src/**/*.{js,ts,jsx,tsx}" ++ [34] ++ js "]" ∧
  (∀ pre suf, firstOccurrence (js "content: []") data pre suf →
     updateConfigText data = pre ++ written ++ suf) ∧
  (¬ occursIn (js "content: []") data → updateConfigText data = data) ∧
  (files st !! p = Some data → writable w p = true →
     ∃ st', updateTailwindConfig w dir cb st = updateIndexCss w dir cb st' ∧
            files st' = <[p := updateConfigText data]> (files st) ∧
            trace st' = trace st ++ [EvRead p; EvWrite p (updateConfigText data);
                                     EvLog MsgConfigUpdated]) ∧
  (files st !! p = Some data → writable w p = false →
     ∃ st', updateTailwindConfig w dir cb st = (Exit (-1), st') ∧
            files st' = files st ∧
            trace st' = trace st ++ [EvRead p; EvWrite p (updateConfigText data);
                                     EvError (MsgConfigError (WriteError p))]) ∧
  (files st !! p = None →
     ∃ st', updateTailwindConfig w dir cb st = (Exit (-1), st') ∧
            files st' = files st ∧
            trace st' = trace st ++ [EvRead p;
                                     EvError (MsgConfigError (ReadError p))]).
Proof.
  intros p written. split; [reflexivity|].
  split; [|split; [|split; [|split]]].
  - intros pre suf H.
    exact (replaceFirst_first CONTENT_PATTERN CONTENT_REPLACEMENT
             data pre suf H).
  - exact (replaceFirst_absent CONTENT_PATTERN CONTENT_REPLACEMENT data).
  - intros Hread Hw.
    exists (emit (EvLog MsgConfigUpdated)
              (setFiles (<[p := updateConfigText data]> (files st))
                 (emit (EvWrite p (updateConfigText data))
                    (emit (EvRead p) st)))).
    split; [|split].
    + unfold updateTailwindConfig, tryCatch, bind, readFileSync,
        writeFileSync, console_log, effect. fold p.
      rewrite Hread, Hw. cbn [files emit].
      destruct (updateIndexCss w dir cb _) as [[u|e|c] st1] eqn:E;
        try reflexivity.
      now apply updateIndexCss_never_throws in E.
    + reflexivity.
    + simpl. now rewrite <- !app_assoc.
  - intros Hread Hw. eexists. split; [|split].
    + unfold updateTailwindConfig, tryCatch, bind, readFileSync,
        writeFileSync, console_log, console_error, effect, process_exit.
      fold p. rewrite Hread, Hw. reflexivity.
    + reflexivity.
    + simpl. now rewrite <- !app_assoc.
  - intros Hread. eexists. split; [|split].
    + unfold updateTailwindConfig, tryCatch, bind, readFileSync,
        console_error, effect, process_exit.
      fold p. rewrite Hread. reflexivity.
    + reflexivity.
    + simpl. now rewrite <- !app_assoc.
Qed.

Lemma config_patch_witness :
  let patched : JSString :=
    js "export default { content: [" ++ [34] ++ js "./index.html" ++ [34] ++
    js ", " ++ [34] ++ js "./src/**/*.{js,ts,jsx,tsx}" ++ [34] ++
    js "], }" in
  updateConfigText (js "export default { content: [], }") = patched ∧
  updateConfigText (js "export default {}") = js "export default {}" ∧
  (∃ st', updateTailwindConfig (sampleWorld [] []) sampleDir None
            (initialState {[configFilePath sampleDir := sampleConfig]}) =
          updateIndexCss (sampleWorld [] []) sampleDir None st' ∧
          files st' !! configFilePath sampleDir = Some patched) ∧
  (∃ st', updateTailwindConfig (sampleWorld [] []) sampleDir None
            (initialState ∅) = (Exit (-1), st') ∧
          files st' = ∅).
Proof.
  intros patched.
  pose proof (config_patch (sampleWorld [] []) sampleDir None
                (initialState {[configFilePath sampleDir := sampleConfig]})
                sampleConfig) as (_ & Hfirst & _ & Hwrite & _ & _).
  pose proof (config_patch (sampleWorld [] []) sampleDir None
                (initialState ∅) (js "export default {}"))
    as (_ & _ & Habsent & _ & _ & Hread).
  assert (updateConfigText sampleConfig = patched) as Hpatched.
  { rewrite (Hfirst (js "export default { ") (js ", }")); [reflexivity|].
    apply (firstOccurrence_check (js "content: []")
             (js "export default { ") (js ", }")).
    vm_compute. reflexivity. }
  split; [exact Hpatched|]. split; [|split].
  - apply Habsent. apply occurrences_zero. vm_compute. reflexivity.
  - destruct Hwrite as (st' & Hrun & Hfiles & _).
    + vm_compute. reflexivity.
    + reflexivity.
    + exists st'. split; [exact Hrun|].
      rewrite Hfiles, Hpatched. apply lookup_insert_eq.
  - destruct Hread as (st' & Hrun & Hfiles & _).
    + vm_compute. reflexivity.
    + exists st'. split; [exact Hrun | exact Hfiles].
Defined.

(** C7, as it is written, fails on a configuration file that holds the
    empty content list twice: the second run patches the second one. *)
Lemma config_patch_twice_counterexample :
  ¬ configPatchIdempotentAt commentedConfig.
Proof. unfold configPatchIdempotentAt. vm_compute. discriminate. Qed.

(** C7, amended. The replacement text holds no empty content list, and a
    second run of the patch leaves the text up to and including the list
    written by the first run as it is: it works on the text after it.
    Patching twice equals patching once exactly when the content holds
    the empty content list at most once. *)
Theorem config_patch_twice (data : JSString) :
  occurrences CONTENT_PATTERN CONTENT_REPLACEMENT = 0%nat ∧
  (configPatchIdempotentAt data ↔
   (occurrences CONTENT_PATTERN data ≤ 1)%nat) ∧
  (∀ pre suf, firstOccurrence CONTENT_PATTERN data pre suf →
     updateConfigText (updateConfigText data) =
     pre ++ CONTENT_REPLACEMENT ++ updateConfigText suf).
Proof.
  split; [reflexivity|]. split.
  - apply replaceFirst_idempotent_iff;
      [exact content_stable | exact content_unbordered].
  - intros pre suf H. apply replaceFirst_twice; [exact content_stable | exact H].
Qed.

Lemma config_patch_twice_witness :
  configPatchIdempotentAt sampleConfig ∧
  updateConfigText (updateConfigText commentedConfig) =
    js "// " ++ CONTENT_REPLACEMENT ++
    updateConfigText (js " lists no file" ++ [lf] ++ sampleConfig).
Proof.
  split.
  - apply (proj1 (proj2 (config_patch_twice sampleConfig))).
    vm_compute. lia.
  - apply (proj2 (proj2 (config_patch_twice commentedConfig))
             (js "// ") (js " lists no file" ++ [lf] ++ sampleConfig)).
    apply (firstOccurrence_check CONTENT_PATTERN (js "// ")
             (js " lists no file" ++ [lf] ++ sampleConfig)).
    vm_compute. reflexivity.
Defined.

(** C8. For every content [data] of the stylesheet, in particular for
    body{}: the patched text is the three import lines, one empty line
    and then [data]. Nothing guards the patch: applied to its own result
    it puts the four lines in front once more. The file is read, written
    with the patched text, and the callback runs; when the file cannot
    be read or written the script exits with status -1. *)
Theorem stylesheet_patch (w : World) (dir : option JSString)
  (cb : option (M unit)) (st : State) (data : JSString) :
  let p := indexCssFilePath dir in
  updateCssText data =
    joinLines [IMPORT_BASE; IMPORT_COMPONENTS; IMPORT_UTILITIES; []; data] ∧
  updateCssText (js "body{}") =
    js "@import 'tailwindcss/base';" ++ [lf] ++
    js "@import 'tailwindcss/components';" ++ [lf] ++
    js "@import 'tailwindcss/utilities';" ++ [lf] ++
    [lf] ++ js "body{}" ∧
  updateCssText (updateCssText data) =
    updateCssText [] ++ updateCssText [] ++ data ∧
  updateCssText (updateCssText data) ≠ updateCssText data ∧
  updateIndexCss w dir cb st =
    match files st !! p with
    | Some d =>
        if writable w p then
          tryCatch
            (match cb with Some f => f | None => ret tt end)
            (fun err =>
               bind (console_error (MsgCssError err))
                    (fun _ => process_exit (-1)))
            (emit (EvLog MsgCssUpdated)
               (setFiles (<[p := updateCssText d]> (files st))
                  (emit (EvWrite p (updateCssText d)) (emit (EvRead p) st))))
        else
          (Exit (-1),
           emit (EvError (MsgCssError (WriteError p)))
             (emit (EvWrite p (updateCssText d)) (emit (EvRead p) st)))
    | None =>
        (Exit (-1),
         emit (EvError (MsgCssError (ReadError p))) (emit (EvRead p) st))
    end.
Proof.
  intros p. split; [reflexivity|]. split; [reflexivity|].
  split; [|split].
  - unfold updateCssText. now rewrite <- !app_assoc.
  - intros E. apply (f_equal length) in E.
    unfold updateCssText in E. rewrite !length_app in E. simpl in E. lia.
  - unfold updateIndexCss, tryCatch, bind, readFileSync, writeFileSync,
      console_log, console_error, effect, process_exit. fold p.
    destruct (files st !! p) as [d|]; [|reflexivity].
    destruct (writable w p); [|reflexivity].
    cbn [files emit].
    now destruct cb as [f|]; [destruct (f _) as [[?|?|?] ?]|].
Qed.

(** C10. The reply is trimmed before it is read: a reply made of white
    space only, or of y or Y with white space around it, selects the
    initialization of the repository, as the empty reply does. *)
Theorem padded_reply_initializes (w : World) (dir : option JSString)
  (before core after : JSString) :
  forallb isWhiteSpace before = true →
  forallb isWhiteSpace after = true →
  core = js "" ∨ core = js "y" ∨ core = js "Y" →
  trim (before ++ core ++ after) = core ∧
  shouldInitializeGit (before ++ core ++ after) = true ∧
  questionCallback w dir (before ++ core ++ after) =
    questionCallback w dir (js "") ∧
  ∀ st, questionCallback w dir (before ++ core ++ after) st =
        executeGitInitialization w dir (setPending false (emit EvClose st)).
Proof.
  intros Hb Ha Hcore.
  assert (trim (before ++ core ++ after) = core) as Htrim.
  { destruct Hcore as [->|[->| ->]].
    - now apply trim_spaces.
    - now apply trim_padded.
    - now apply trim_padded. }
  assert (shouldInitializeGit (before ++ core ++ after) = true) as Hyes.
  { apply shouldInitializeGit_iff. rewrite Htrim. tauto. }
  repeat split; try assumption.
  - unfold questionCallback. rewrite Hyes. reflexivity.
  - intros st. unfold questionCallback, bind, rl_close. now rewrite Hyes.
Qed.

Lemma padded_reply_initializes_witness :
  shouldInitializeGit (js "  " ++ [9] ++ js "Y" ++ js " ") = true ∧
  shouldInitializeGit (js " " ++ js "" ++ [9; 160]) = true.
Proof.
  split.
  - apply (padded_reply_initializes (sampleWorld [] []) sampleDir
             (js "  " ++ [9]) (js "Y") (js " "));
      [reflexivity | reflexivity | tauto].
  - apply (padded_reply_initializes (sampleWorld [] []) sampleDir
             (js " ") (js "") [9; 160]);
      [reflexivity | reflexivity | tauto].
Defined.

(** ** Runs of the whole script *)

(** Two different commands of the table are different command lines:
    their lengths differ. *)
Section CommandLengths.

Variable dir : option JSString.

Let n := length (templateValue dir).

Lemma length_INSTALL_VITE_TS :
  length (INSTALL_VITE_TS (RUN_COMMAND dir)) = (44 + n)%nat.
Proof. unfold n. cbn [INSTALL_VITE_TS RUN_COMMAND]. rewrite !length_app. simpl. lia. Qed.

Lemma length_INSTALL_TAILWIND :
  length (INSTALL_TAILWIND (RUN_COMMAND dir)) = (54 + n)%nat.
Proof. unfold n. cbn [INSTALL_TAILWIND RUN_COMMAND]. rewrite !length_app. simpl. lia. Qed.

Lemma length_INITIALIZE_TAILWIND :
  length (INITIALIZE_TAILWIND (RUN_COMMAND dir)) = (35 + n)%nat.
Proof. unfold n. cbn [INITIALIZE_TAILWIND RUN_COMMAND]. rewrite !length_app. simpl. lia. Qed.

Lemma length_INITIALIZE_GIT :
  length (INITIALIZE_GIT (RUN_COMMAND dir)) = (15 + n)%nat.
Proof. unfold n. cbn [INITIALIZE_GIT RUN_COMMAND]. rewrite !length_app. simpl. lia. Qed.

Lemma length_CHANGE_BRANCH :
  length (CHANGE_BRANCH (RUN_COMMAND dir)) = (25 + n)%nat.
Proof. unfold n. cbn [CHANGE_BRANCH RUN_COMMAND]. rewrite !length_app. simpl. lia. Qed.

Lemma length_INSTALL_DEPENDENCIES :
  length (INSTALL_DEPENDENCIES (RUN_COMMAND dir)) = (18 + n)%nat.
Proof. unfold n. cbn [INSTALL_DEPENDENCIES RUN_COMMAND]. rewrite !length_app. simpl. lia. Qed.

End CommandLengths.

Lemma EvExec_inj (a b : JSString) : EvExec a = EvExec b → a = b.
Proof. intros H. now injection H. Qed.

Ltac cmd_neq H :=
  exfalso; apply (f_equal length) in H;
  rewrite ?length_INSTALL_VITE_TS, ?length_INSTALL_TAILWIND,
    ?length_INITIALIZE_TAILWIND, ?length_INITIALIZE_GIT,
    ?length_CHANGE_BRANCH, ?length_INSTALL_DEPENDENCIES in H;
  lia.

Lemma printsBanner_check (tr : list Event) :
  drop (length tr - 3) tr = banner → printsBanner tr.
Proof.
  intros E. exists (take (length tr - 3) tr).
  now rewrite <- E, take_drop.
Qed.

Lemma printsBanner_success (tr : list Event) :
  printsBanner tr → EvLog MsgSuccess ∈ tr.
Proof.
  intros [before ->]. apply elem_of_app. right.
  unfold banner. set_solver.
Qed.

Ltac unfold_script :=
  unfold run, initialState, script, executeTailwindInitialization,
    updateTailwindConfig, updateIndexCss, promptUser, questionCallback,
    executeGitInitialization, continueSetup, execCommand, execSync,
    readFileSync, writeFileSync, createInterface, rl_question, rl_close,
    console_log, console_error, effect, process_exit, tryCatch, bind, ret
    in *.

Ltac red_state :=
  cbn [fst snd files trace pending emit setFiles setPending app negb orb
       andb List.filter isQuestion isFileOp isCommandCall isExternalCall
       length falsy eventLoop exitStatus missing] in *.

Ltac branch_on t :=
  let E := fresh "E" in
  destruct t eqn:E; unfold_script; red_state;
  try discriminate; try congruence.

Ltac explore_step :=
  match goal with
  | |- context [<[?k := ?v]> ?m !! indexCssFilePath ?d] =>
      rewrite (lookup_insert_ne m k (indexCssFilePath d) v)
        by apply paths_distinct
  | H : context [<[?k := ?v]> ?m !! indexCssFilePath ?d] |- _ =>
      rewrite (lookup_insert_ne m k (indexCssFilePath d) v) in H
        by apply paths_distinct
  | |- context [if cmd_ok ?w ?c then _ else _] => branch_on (cmd_ok w c)
  | |- context [match ?m !! ?k with _ => _ end] => branch_on (m !! k)
  | |- context [if writable ?w ?p then _ else _] => branch_on (writable w p)
  | |- context [match stdin_lines ?w with _ => _ end] =>
      branch_on (stdin_lines w)
  | |- context [if shouldInitializeGit ?a then _ else _] =>
      branch_on (shouldInitializeGit a)
  | |- context [eventLoop _ _ ?l _] => branch_on l
  end.

Ltac explore := unfold_script; red_state; repeat explore_step.

Ltac no_member H :=
  repeat (apply elem_of_cons in H as [H|H];
          [first [discriminate H | apply EvExec_inj in H; cmd_neq H]|]);
  apply elem_of_nil in H; destruct H.

Ltac find_member :=
  repeat first [apply list_elem_of_here | apply list_elem_of_further].

(** All the runs of the script for an argument [dir], one goal for each
    way through it. *)
Ltac by_cases dir :=
  match goal with
  | |- context [run ?w dir ?fs] =>
      let r := fresh "r" in
      let Er := fresh "Er" in
      remember (run w dir fs) as r eqn:Er in *;
      revert Er; destruct dir as [[|? ?]|]; explore; intros ->; red_state
  end.

(** C5. When the first argument is missing or empty the script prints
    the request for a directory name and exits with status -1: no
    command runs and no file is read or written. *)
Theorem missing_argument_exits (w : World) (dir : option JSString)
  (fs0 : gmap JSString JSString) :
  dir = None ∨ dir = Some [] →
  run w dir fs0 =
    (Exited (-1),
     {| files := fs0; trace := [EvLog MsgEnterDirName]; pending := false |}) ∧
  exitStatus (run w dir fs0).1 ≠ 0%Z ∧
  List.filter isExternalCall (trace (run w dir fs0).2) = [].
Proof. intros [->| ->]; repeat split; discriminate. Qed.

Lemma missing_argument_exits_witness :
  exitStatus (run (sampleWorld [] [js "y"]) None ∅).1 ≠ 0%Z ∧
  List.filter isExternalCall
    (trace (run (sampleWorld [] [js "y"]) (Some (js "")) ∅).2) = [].
Proof.
  split.
  - apply (missing_argument_exits (sampleWorld [] [js "y"]) None ∅).
    left. reflexivity.
  - apply (missing_argument_exits (sampleWorld [] [js "y"]) (Some (js "")) ∅).
    right. reflexivity.
Defined.

(** C4. In every run in which the initialization of the styling
    configuration fails, the script exits with status -1; no file is
    read or written, so neither patch is applied, and no question is
    asked. *)
Theorem styling_init_failure_is_fatal (w : World) (dir : option JSString)
  (fs0 : gmap JSString JSString) :
  EvExec (INITIALIZE_TAILWIND (RUN_COMMAND dir)) ∈ trace (run w dir fs0).2 →
  cmd_ok w (INITIALIZE_TAILWIND (RUN_COMMAND dir)) = false →
  (run w dir fs0).1 = Exited (-1) ∧
  exitStatus (run w dir fs0).1 ≠ 0%Z ∧
  List.filter isFileOp (trace (run w dir fs0).2) = [] ∧
  List.filter isQuestion (trace (run w dir fs0).2) = [] ∧
  files (run w dir fs0).2 = setupFiles w dir fs0.
Proof.
  intros Hrun Hfail. unfold setupFiles. by_cases dir.
  all: try (no_member Hrun).
  all: repeat split; discriminate.
Qed.

Lemma styling_init_failure_is_fatal_witness :
  let w := sampleWorld [INITIALIZE_TAILWIND (RUN_COMMAND sampleDir)] [js "y"] in
  (run w sampleDir ∅).1 = Exited (-1) ∧
  exitStatus (run w sampleDir ∅).1 ≠ 0%Z ∧
  List.filter isFileOp (trace (run w sampleDir ∅).2) = [] ∧
  List.filter isQuestion (trace (run w sampleDir ∅).2) = [] ∧
  files (run w sampleDir ∅).2 = setupFiles w sampleDir ∅.
Proof.
  intros w. apply (styling_init_failure_is_fatal w sampleDir ∅).
  - vm_compute. find_member.
  - vm_compute. reflexivity.
Defined.

(** C2, as it is written, fails on the run in which the user asks for a
    repository and git init fails. *)
Lemma vcs_init_failure_counterexample :
  ¬ vcsFailureStillCompletes
      (sampleWorld [INITIALIZE_GIT (RUN_COMMAND sampleDir)] [js "y"])
      sampleDir ∅.
Proof.
  intros H. destruct H as [_ H].
  - vm_compute. find_member.
  - vm_compute. reflexivity.
  - intros c Hc. cbn [cmd_ok sampleWorld existsb].
    destruct (strictEq c _) eqn:E; [|reflexivity].
    apply strictEq_eq in E. contradiction.
  - vm_compute in H. discriminate H.
Qed.

(** C2, amended. In every run in which the initialization of the
    repository fails, the script reports the failure and exits with
    status -1: the branch is not renamed, the dependencies are not
    installed and the completion banner is not printed. *)
Theorem vcs_init_failure_is_fatal (w : World) (dir : option JSString)
  (fs0 : gmap JSString JSString) :
  EvExec (INITIALIZE_GIT (RUN_COMMAND dir)) ∈ trace (run w dir fs0).2 →
  cmd_ok w (INITIALIZE_GIT (RUN_COMMAND dir)) = false →
  (run w dir fs0).1 = Exited (-1) ∧
  exitStatus (run w dir fs0).1 ≠ 0%Z ∧
  EvError MsgGitInitFailed ∈ trace (run w dir fs0).2 ∧
  (EvExec (CHANGE_BRANCH (RUN_COMMAND dir)) ∉ trace (run w dir fs0).2) ∧
  (EvExec (INSTALL_DEPENDENCIES (RUN_COMMAND dir)) ∉ trace (run w dir fs0).2) ∧
  ¬ printsBanner (trace (run w dir fs0).2).
Proof.
  intros Hrun Hfail. by_cases dir.
  all: try (no_member Hrun).
  all: repeat split; try discriminate; try find_member.
  all: intros H; try apply printsBanner_success in H; no_member H.
Qed.

Lemma vcs_init_failure_is_fatal_witness :
  let w := sampleWorld [INITIALIZE_GIT (RUN_COMMAND sampleDir)] [js "y"] in
  (run w sampleDir ∅).1 = Exited (-1) ∧
  exitStatus (run w sampleDir ∅).1 ≠ 0%Z ∧
  EvError MsgGitInitFailed ∈ trace (run w sampleDir ∅).2 ∧
  (EvExec (CHANGE_BRANCH (RUN_COMMAND sampleDir)) ∉ trace (run w sampleDir ∅).2) ∧
  (EvExec (INSTALL_DEPENDENCIES (RUN_COMMAND sampleDir))
    ∉ trace (run w sampleDir ∅).2) ∧
  ¬ printsBanner (trace (run w sampleDir ∅).2).
Proof.
  intros w. apply (vcs_init_failure_is_fatal w sampleDir ∅).
  - vm_compute. find_member.
  - vm_compute. reflexivity.
Defined.

(** C3. In every run in which the branch rename fails, the script
    prints the error and returns: the dependencies are not installed,
    the completion banner is not printed, and the process ends without
    a call of process.exit. The sentence of the specification does not
    hold for any such run. *)
Theorem rename_failure_stops (w : World) (dir : option JSString)
  (fs0 : gmap JSString JSString) :
  EvExec (CHANGE_BRANCH (RUN_COMMAND dir)) ∈ trace (run w dir fs0).2 →
  cmd_ok w (CHANGE_BRANCH (RUN_COMMAND dir)) = false →
  (run w dir fs0).1 = Drained ∧
  EvError MsgBranchFailed ∈ trace (run w dir fs0).2 ∧
  (EvExec (INSTALL_DEPENDENCIES (RUN_COMMAND dir)) ∉ trace (run w dir fs0).2) ∧
  ¬ printsBanner (trace (run w dir fs0).2) ∧
  ¬ renameFailureContinues w dir fs0.
Proof.
  intros Hrun Hfail.
  assert ((run w dir fs0).1 = Drained ∧
          EvError MsgBranchFailed ∈ trace (run w dir fs0).2 ∧
          (EvExec (INSTALL_DEPENDENCIES (RUN_COMMAND dir))
            ∉ trace (run w dir fs0).2) ∧
          ¬ printsBanner (trace (run w dir fs0).2)) as H.
  { by_cases dir.
    all: try (no_member Hrun).
    all: repeat split; try discriminate; try find_member.
    all: intros H; try apply printsBanner_success in H; no_member H. }
  destruct H as (H1 & H2 & H3 & H4). repeat split; try assumption.
  intros Hspec. destruct (Hspec Hrun Hfail) as (_ & Hdeps & _).
  contradiction.
Qed.

Lemma rename_failure_stops_witness :
  let w := sampleWorld [CHANGE_BRANCH (RUN_COMMAND sampleDir)] [js "y"] in
  (run w sampleDir ∅).1 = Drained ∧
  EvError MsgBranchFailed ∈ trace (run w sampleDir ∅).2 ∧
  (EvExec (INSTALL_DEPENDENCIES (RUN_COMMAND sampleDir))
    ∉ trace (run w sampleDir ∅).2) ∧
  ¬ printsBanner (trace (run w sampleDir ∅).2) ∧
  ¬ renameFailureContinues w sampleDir ∅.
Proof.
  intros w. apply (rename_failure_stops w sampleDir ∅).
  - vm_compute. find_member.
  - vm_compute. reflexivity.
Defined.

(** C1, as it is written, fails on the run in which the user asks for a
    repository and git init fails: the status is -1 and none of the
    three conditions holds. *)
Lemma fatal_conditions_counterexample :
  ¬ onlyThreeFatal
      (sampleWorld [INITIALIZE_GIT (RUN_COMMAND sampleDir)] [js "y"])
      sampleDir ∅.
Proof.
  intros H. destruct H as [H|[H|H]].
  - vm_compute. discriminate.
  - vm_compute in H. discriminate H.
  - vm_compute in H. discriminate H.
  - vm_compute in H. discriminate H.
Qed.

(** C1, amended. The run ends with a non-zero status exactly in four
    cases: the directory name is missing or empty, the initialization of
    the styling configuration fails, a file access of the two patches
    fails, or the user asks for a repository and its initialization
    fails. A failure of the project creation, of the installation of the
    styling packages or of the installation of the dependencies is only
    reported: when none of the four cases occurs, a reply is read and
    the branch rename, if it runs, succeeds, the run ends with the
    completion banner and status 0, whatever these three commands
    return. *)
Theorem fatal_conditions (w : World) (dir : option JSString)
  (fs0 : gmap JSString JSString) :
  (exitStatus (run w dir fs0).1 ≠ 0%Z ↔
   falsy dir = true ∨
   cmd_ok w (INITIALIZE_TAILWIND (RUN_COMMAND dir)) = false ∨
   patchIoError w dir fs0 = true ∨
   (answersYes w = true ∧
    cmd_ok w (INITIALIZE_GIT (RUN_COMMAND dir)) = false)) ∧
  (falsy dir = false →
   cmd_ok w (INITIALIZE_TAILWIND (RUN_COMMAND dir)) = true →
   patchIoError w dir fs0 = false →
   stdin_lines w ≠ [] →
   (answersYes w = true →
    cmd_ok w (INITIALIZE_GIT (RUN_COMMAND dir)) = true ∧
    cmd_ok w (CHANGE_BRANCH (RUN_COMMAND dir)) = true) →
   (run w dir fs0).1 = Exited 0 ∧
   printsBanner (trace (run w dir fs0).2) ∧
   ∀ c, c = INSTALL_VITE_TS (RUN_COMMAND dir) ∨
        c = INSTALL_TAILWIND (RUN_COMMAND dir) ∨
        c = INSTALL_DEPENDENCIES (RUN_COMMAND dir) →
        cmd_ok w c = false →
        failureReport c ∈ trace (run w dir fs0).2).
Proof.
  split.
  - unfold patchIoError, missing, setupFiles, answersYes. by_cases dir.
    all: intuition (try discriminate; try congruence).
  - intros Hdir Hinit Hio Hline Hyes.
    unfold patchIoError, missing, setupFiles, answersYes in *. by_cases dir.
    all: try discriminate.
    all: try (destruct (Hyes eq_refl) as [? ?]; congruence).
    all: split; [reflexivity|];
      split; [apply printsBanner_check; reflexivity|].
    all: intros c [->|[->| ->]] Hc;
      first [congruence | unfold failureReport; solve [find_member]].
Qed.

Lemma fatal_conditions_witness :
  let w := sampleWorld [INSTALL_VITE_TS (RUN_COMMAND sampleDir);
                        INSTALL_TAILWIND (RUN_COMMAND sampleDir);
                        INSTALL_DEPENDENCIES (RUN_COMMAND sampleDir)]
             [js "y"] in
  let fs0 : gmap JSString JSString :=
    {[indexCssFilePath sampleDir := js "body{}"]} in
  (run w sampleDir fs0).1 = Exited 0 ∧
  printsBanner (trace (run w sampleDir fs0).2) ∧
  failureReport (INSTALL_VITE_TS (RUN_COMMAND sampleDir))
    ∈ trace (run w sampleDir fs0).2.
Proof.
  intros w fs0.
  destruct (proj2 (fatal_conditions w sampleDir fs0)) as (H1 & H2 & H3).
  - reflexivity.
  - vm_compute. reflexivity.
  - vm_compute. reflexivity.
  - discriminate.
  - intros _. split; vm_compute; reflexivity.
  - split; [exact H1|]. split; [exact H2|].
    apply H3; [now left | vm_compute; reflexivity].
Defined.

(** C9, as it is written, fails on the reply of one space: it is none of
    the three replies, and it selects the initialization. *)
Lemma reply_counterexample : ¬ replySelectsLiterally (js " ").
Proof.
  intros [H _]. destruct (H eq_refl) as [E|[E|E]]; discriminate E.
Qed.

(** C9, amended. The reply is read after white space around it is
    removed: it selects the initialization of the repository when what
    is left is empty, y or Y (so the replies of nothing, y and Y do),
    and the skip branch in every other case (so the reply n does). In no
    run is the question asked a second time. *)
Theorem reply_selects_branch (w : World) (dir : option JSString)
  (answer : JSString) :
  (shouldInitializeGit answer = true ↔
   trim answer = js "" ∨ trim answer = js "y" ∨ trim answer = js "Y") ∧
  shouldInitializeGit (js "") = true ∧
  shouldInitializeGit (js "y") = true ∧
  shouldInitializeGit (js "Y") = true ∧
  shouldInitializeGit (js "n") = false ∧
  (∀ st, questionCallback w dir answer st =
         if shouldInitializeGit answer
         then executeGitInitialization w dir
                (setPending false (emit EvClose st))
         else bind (console_log MsgGitSkipped)
                (fun _ => continueSetup w dir)
                (setPending false (emit EvClose st))) ∧
  (∀ fs0,
     (length (List.filter isQuestion (trace (run w dir fs0).2)) ≤ 1)%nat).
Proof.
  split; [apply shouldInitializeGit_iff|].
  repeat (split; [reflexivity|]). split.
  - intros st. unfold questionCallback, bind, rl_close.
    now destruct (shouldInitializeGit answer).
  - intros fs0. by_cases dir. all: lia.
Qed.

(** * Further properties *)

(** ** The configuration patch, applied again and again *)

Lemma startsWith_before_replacement (pat repl : JSString) a
  (s pre suf : JSString) :
  stable pat repl = true →
  firstOccurrence pat s (a :: pre) suf →
  startsWith pat ((a :: pre) ++ repl ++ suf) = false.
Proof.
  intros Hst Hfirst.
  destruct (startsWith pat ((a :: pre) ++ repl ++ suf)) eqn:E; [|reflexivity].
  apply (startsWith_boundary (a :: pre) pat (repl ++ suf) (pat ++ suf))
    in E as [E|[Hlen E]].
  - pose proof (firstOccurrence_no_earlier _ _ _ _ _ Hfirst) as Hno.
    destruct Hfirst as [Hocc _]. red in Hocc. subst s. congruence.
  - rewrite clash_startsWith in E; [discriminate|].
    apply (stable_border pat repl Hst), drop_in_proper_tails.
    simpl in *. lia.
Qed.

Lemma occurrences_after (pat repl s pre suf : JSString) :
  stable pat repl = true →
  firstOccurrence pat s pre suf →
  occurrences pat (pre ++ repl ++ suf) = occurrences pat suf.
Proof.
  intros Hst. revert s; induction pre as [|a pre IH]; intros s Hfirst.
  - simpl. apply occurrences_through, (stable_inside pat repl Hst).
  - pose proof (startsWith_before_replacement pat repl a s pre suf
                  Hst Hfirst) as E.
    pose proof Hfirst as [Hocc _]. red in Hocc. subst s.
    simpl app in *. cbn [occurrences]. rewrite E. simpl.
    apply (IH (pre ++ pat ++ suf)). now apply firstOccurrence_tail with a.
Qed.

Lemma updateConfigText_step (data : JSString) :
  occurrences CONTENT_PATTERN (updateConfigText data) =
    pred (occurrences CONTENT_PATTERN data) ∧
  length (updateConfigText data) =
    (length data + 44 * Nat.min 1 (occurrences CONTENT_PATTERN data))%nat.
Proof.
  unfold updateConfigText.
  destruct (occurrences CONTENT_PATTERN data) as [|n] eqn:E.
  - apply occurrences_zero in E as Hno.
    rewrite (replaceFirst_absent _ _ _ Hno), E. lia.
  - assert (occursIn CONTENT_PATTERN data) as Hin
      by (apply occurrences_pos; lia).
    destruct (firstOccurrence_exists _ _ Hin) as (pre & suf & Hfirst).
    rewrite (replaceFirst_first _ CONTENT_REPLACEMENT _ _ _ Hfirst).
    rewrite (occurrences_after _ _ _ _ _ content_stable Hfirst).
    rewrite (occurrences_first_eq _ _ content_stable content_unbordered
               _ _ _ Hfirst) in E.
    destruct Hfirst as [-> _]. split; [lia|].
    rewrite !length_app. change (length CONTENT_REPLACEMENT) with 55%nat.
    change (length CONTENT_PATTERN) with 11%nat. lia.
Qed.

(** X1. Every application of the configuration patch removes exactly one
    empty content list, if there is one, and makes the text 44 code
    units longer: after [n] applications [n] of them are gone (all of
    them, when the text held no more than [n]). *)
Theorem config_patch_iterated (n : nat) (data : JSString) :
  occurrences CONTENT_PATTERN (Nat.iter n updateConfigText data) =
    (occurrences CONTENT_PATTERN data - n)%nat ∧
  length (Nat.iter n updateConfigText data) =
    (length data + 44 * Nat.min n (occurrences CONTENT_PATTERN data))%nat.
Proof.
  induction n as [|n [IHo IHl]]; [split; cbn; lia|].
  rewrite Nat.iter_succ.
  destruct (updateConfigText_step (Nat.iter n updateConfigText data))
    as [Ho Hl].
  rewrite Ho, Hl, IHo, IHl. split; lia.
Qed.

(** ** The stylesheet patch, applied again and again *)

Lemma updateCssText_header (data : JSString) :
  updateCssText data = cssHeader ++ data.
Proof. unfold cssHeader, updateCssText. now rewrite <- !app_assoc. Qed.

(** X2. The stylesheet patch only adds text in front: the text it was
    given is what follows the added header, so two different
    stylesheets stay different, and after [n] applications the original
    text follows [n] headers. *)
Theorem stylesheet_patch_keeps_content (n : nat) (data data' : JSString) :
  drop (length cssHeader) (updateCssText data) = data ∧
  (updateCssText data = updateCssText data' → data = data') ∧
  drop (n * length cssHeader) (Nat.iter n updateCssText data) = data ∧
  length (Nat.iter n updateCssText data) =
    (n * length cssHeader + length data)%nat.
Proof.
  split; [|split].
  - rewrite updateCssText_header. apply drop_app_length.
  - rewrite !updateCssText_header. apply app_inv_head.
  - induction n as [|n [IHd IHl]];
      [split; [apply drop_0 | reflexivity]|].
    rewrite Nat.iter_succ, updateCssText_header. split.
    + replace (S n * length cssHeader)%nat
        with (length cssHeader + n * length cssHeader)%nat by lia.
      rewrite <- drop_drop, drop_app_length. exact IHd.
    + rewrite length_app, IHl. lia.
Qed.

(** ** The reply *)

Lemma trimStart_all_spaces (ws : JSString) :
  forallb isWhiteSpace ws = true → trimStart ws = [].
Proof.
  induction ws as [|c ws IH]; simpl; [done|].
  intros H. apply andb_prop in H as [-> H]. now apply IH.
Qed.

Lemma trim_app_spaces (s ws : JSString) :
  forallb isWhiteSpace ws = true → trim (s ++ ws) = trim s.
Proof.
  intros Hws. unfold trim. induction s as [|c s IH]; simpl.
  - now rewrite trimStart_all_spaces.
  - destruct (isWhiteSpace c); [exact IH|].
    now apply (trimEnd_app_spaces (c :: s)).
Qed.

Lemma trim_padding (before s after : JSString) :
  forallb isWhiteSpace before = true → forallb isWhiteSpace after = true →
  trim (before ++ s ++ after) = trim s.
Proof.
  intros Hb Ha. rewrite app_assoc, trim_app_spaces by exact Ha.
  unfold trim. now rewrite trimStart_spaces.
Qed.

(** X3. White space around a reply never changes the branch: for every
    reply, with white space put before and after it the same branch is
    chosen and the callback behaves the same. *)
Theorem reply_padding_is_ignored (w : World) (dir : option JSString)
  (before answer after : JSString) :
  forallb isWhiteSpace before = true →
  forallb isWhiteSpace after = true →
  shouldInitializeGit (before ++ answer ++ after) =
    shouldInitializeGit answer ∧
  questionCallback w dir (before ++ answer ++ after) =
    questionCallback w dir answer.
Proof.
  intros Hb Ha.
  assert (shouldInitializeGit (before ++ answer ++ after) =
          shouldInitializeGit answer) as E.
  { unfold shouldInitializeGit. now rewrite trim_padding. }
  split; [exact E|]. unfold questionCallback. now rewrite E.
Qed.

Lemma reply_padding_is_ignored_witness :
  shouldInitializeGit (js " " ++ js "no" ++ [9]) =
    shouldInitializeGit (js "no").
Proof.
  apply (reply_padding_is_ignored (sampleWorld [] []) sampleDir
           (js " ") (js "no") [9]); reflexivity.
Defined.

(** X4. Only the single letter counts: a reply that is two or more code
    units long once the white space around it is removed, such as yes,
    selects the skip branch. *)
Theorem long_reply_skips (answer : JSString) :
  (2 ≤ length (trim answer))%nat →
  shouldInitializeGit answer = false.
Proof.
  intros Hlen. destruct (shouldInitializeGit answer) eqn:E; [|reflexivity].
  apply shouldInitializeGit_iff in E as [E|[E|E]];
    rewrite E in Hlen; simpl in Hlen; lia.
Qed.

Lemma long_reply_skips_witness :
  shouldInitializeGit (js " yes ") = false.
Proof. apply (long_reply_skips (js " yes ")). vm_compute. lia. Defined.

(** ** The functions of the script, one by one *)

Lemma commandsRun_app (tr tr' : list Event) :
  commandsRun (tr ++ tr') = commandsRun tr ++ commandsRun tr'.
Proof.
  induction tr as [|e tr IH]; [reflexivity|].
  destruct e; simpl; now rewrite IH.
Qed.

(** X5. [execCommand] never throws and never ends the process: it makes
    one attempt, returns whether the command succeeded, and prints the
    failure message exactly when it did not. *)
Theorem execCommand_one_attempt (w : World) (command : JSString)
  (st : State) :
  ∃ st',
    execCommand w command st = (Val (cmd_ok w command), st') ∧
    files st' = cmd_effect w command (files st) ∧
    trace st' =
      trace st ++ EvExec command ::
        (if cmd_ok w command then [] else [failureReport command]) ∧
    commandsRun (trace st') = commandsRun (trace st) ++ [command].
Proof.
  unfold execCommand, tryCatch, bind, execSync, console_error, effect, ret.
  destruct (cmd_ok w command); eexists; (split; [reflexivity|]);
    cbn [files trace emit setFiles]; (split; [reflexivity|]).
  - split; [reflexivity|]. now rewrite commandsRun_app.
  - rewrite <- !app_assoc. split; [reflexivity|].
    now rewrite !commandsRun_app.
Qed.

Lemma printsBanner_app (tr : list Event) : printsBanner (tr ++ banner).
Proof. now exists tr. Qed.

(** X6. [continueSetup] always ends the process with status 0 and the
    completion banner, whether the installation of the dependencies
    succeeds or not; the installation is the only command it runs. *)
Theorem continueSetup_always_completes (w : World) (dir : option JSString)
  (st : State) :
  ∃ st',
    continueSetup w dir st = (Exit 0, st') ∧
    printsBanner (trace st') ∧
    trace st' =
      trace st ++
      EvExec (INSTALL_DEPENDENCIES (RUN_COMMAND dir)) ::
      (if cmd_ok w (INSTALL_DEPENDENCIES (RUN_COMMAND dir))
       then [EvLog MsgDepsInstalled]
       else [failureReport (INSTALL_DEPENDENCIES (RUN_COMMAND dir));
             EvError MsgDepsFailed]) ++ banner ∧
    commandsRun (trace st') =
      commandsRun (trace st) ++ [INSTALL_DEPENDENCIES (RUN_COMMAND dir)].
Proof.
  unfold continueSetup, execCommand, tryCatch, bind, execSync,
    console_log, console_error, effect, process_exit, ret.
  set (c := INSTALL_DEPENDENCIES (RUN_COMMAND dir)).
  destruct (cmd_ok w c); eexists; (split; [reflexivity|]);
    cbn [files trace emit setFiles negb].
  - assert (((((trace st ++ [EvExec c]) ++ [EvLog MsgDepsInstalled]) ++
               [EvLog MsgBlankLines]) ++ [EvLog MsgArt]) ++ [EvLog MsgSuccess]
            = (trace st ++ [EvExec c; EvLog MsgDepsInstalled]) ++ banner)
      as -> by now rewrite <- !app_assoc.
    split; [apply printsBanner_app|]. split.
    + now rewrite <- !app_assoc.
    + rewrite !commandsRun_app. cbn [commandsRun banner].
      now rewrite !app_nil_r.
  - unfold failureReport.
    assert ((((((trace st ++ [EvExec c]) ++
                 [EvError (MsgFailedExec c (ExecError c))]) ++
                [EvError MsgDepsFailed]) ++
               [EvLog MsgBlankLines]) ++ [EvLog MsgArt]) ++ [EvLog MsgSuccess]
            = (trace st ++ [EvExec c;
                            EvError (MsgFailedExec c (ExecError c));
                            EvError MsgDepsFailed]) ++ banner)
      as -> by now rewrite <- !app_assoc.
    split; [apply printsBanner_app|]. split.
    + now rewrite <- !app_assoc.
    + rewrite !commandsRun_app. cbn [commandsRun banner failureReport].
      now rewrite !app_nil_r.
Qed.

(** X7. Nothing is rolled back: when the configuration file has been
    patched and the stylesheet then cannot be read or written, the
    script exits with status -1, the configuration file keeps its
    patched text, the error is reported as a stylesheet error and the
    callback is not called. *)
Theorem stylesheet_failure_keeps_config_patch (w : World)
  (dir : option JSString) (cb : option (M unit)) (st : State)
  (data : JSString) :
  files st !! configFilePath dir = Some data →
  writable w (configFilePath dir) = true →
  files st !! indexCssFilePath dir = None ∨
  writable w (indexCssFilePath dir) = false →
  ∃ st' err,
    updateTailwindConfig w dir cb st = (Exit (-1), st') ∧
    updateTailwindConfig w dir None st = (Exit (-1), st') ∧
    files st' = <[configFilePath dir := updateConfigText data]> (files st) ∧
    last (trace st') = Some (EvError (MsgCssError err)).
Proof.
  intros Hread Hw Hcss.
  unfold updateTailwindConfig, updateIndexCss, tryCatch, bind, readFileSync,
    writeFileSync, console_log, console_error, effect, process_exit.
  rewrite Hread, Hw. cbn [files emit setFiles].
  rewrite (lookup_insert_ne (files st) _ _ _ (paths_distinct dir)).
  destruct (files st !! indexCssFilePath dir) as [css|] eqn:E.
  - destruct Hcss as [Hcss|Hcss]; [discriminate|]. rewrite Hcss.
    eexists _, _. repeat split. cbn [trace emit]. apply last_snoc.
  - eexists _, _. repeat split. cbn [trace emit]. apply last_snoc.
Qed.

Lemma stylesheet_failure_keeps_config_patch_witness :
  ∃ st' err,
    updateTailwindConfig (sampleWorld [] []) sampleDir None
      (initialState {[configFilePath sampleDir := sampleConfig]}) =
      (Exit (-1), st') ∧
    files st' !! configFilePath sampleDir =
      Some (updateConfigText sampleConfig) ∧
    last (trace st') = Some (EvError (MsgCssError err)).
Proof.
  destruct (stylesheet_failure_keeps_config_patch (sampleWorld [] [])
              sampleDir None
              (initialState {[configFilePath sampleDir := sampleConfig]})
              sampleConfig) as (st' & err & H1 & _ & H2 & H3).
  - vm_compute. reflexivity.
  - reflexivity.
  - left. vm_compute. reflexivity.
  - exists st', err. split; [exact H1|]. split; [|exact H3].
    rewrite H2. apply lookup_insert_eq.
Defined.

(** ** Every run of the script *)

Lemma commandTable_NoDup (dir : option JSString) : NoDup (commandTable dir).
Proof.
  unfold commandTable.
  repeat (apply NoDup_cons; split;
          [intros H;
           repeat (apply elem_of_cons in H as [H|H]; [cmd_neq H|]);
           apply elem_of_nil in H; destruct H|]).
  apply NoDup_nil_2.
Qed.

Lemma MsgFailedExec_inj (a b : JSString) (e e' : Exn) :
  EvError (MsgFailedExec a e) = EvError (MsgFailedExec b e') → a = b.
Proof. intros H. now injection H. Qed.

(** The reduction of [red_state], extended to the vocabulary of this
    part. *)
Ltac red_trace :=
  cbn [fst snd files trace pending emit setFiles setPending app negb orb
       andb List.filter isQuestion isFileOp isCommandCall isExternalCall
       isErrorReport isClose isCreateInterface commandsRun firstn
       length falsy eventLoop exitStatus missing] in *.

Ltac all_runs dir :=
  match goal with
  | |- context [run ?w dir ?fs] =>
      let r := fresh "r" in
      let Er := fresh "Er" in
      remember (run w dir fs) as r eqn:Er in *;
      revert Er; destruct dir as [[|? ?]|]; explore; intros ->; red_trace
  end.

Ltac in_order :=
  repeat first [apply sublist_nil | apply sublist_skip | apply sublist_cons].

Ltac settle :=
  try reflexivity; try discriminate; try congruence;
  try solve [find_member];
  try (apply printsBanner_check; reflexivity);
  try match goal with
      | H : printsBanner _ |- _ =>
          apply printsBanner_success in H; solve [no_member H]
      end;
  try match goal with
      | H : _ ∈ _ |- _ => solve [no_member H]
      end;
  try solve [intuition (try discriminate; try congruence)].

(** X8. No command is retried and the order is fixed: in every run the
    command lines executed are a subsequence of the table of commands,
    in its order, and each is executed at most once. *)
Theorem commands_in_table_order (w : World) (dir : option JSString)
  (fs0 : gmap JSString JSString) :
  commandsRun (trace (run w dir fs0).2) `sublist_of` commandTable dir ∧
  NoDup (commandsRun (trace (run w dir fs0).2)).
Proof.
  assert (commandsRun (trace (run w dir fs0).2) `sublist_of` commandTable dir)
    as H.
  { unfold commandTable. all_runs dir.
    all: in_order. }
  split; [exact H|].
  eapply sublist_NoDup; [apply commandTable_NoDup | exact H].
Qed.

(** X9. The script touches two files only, once each: in every run the
    file accesses are an initial part of reading the configuration
    file, writing its patched text, reading the stylesheet and writing
    its patched text, where the texts patched are the ones the first
    three commands left. *)
Theorem file_accesses_are_the_patches (w : World) (dir : option JSString)
  (fs0 : gmap JSString JSString) :
  List.filter isFileOp (trace (run w dir fs0).2)
    `prefix_of` patchAccesses w dir fs0.
Proof.
  unfold patchAccesses, contentAt, setupFiles. all_runs dir.
  all: simplify_eq; eexists; reflexivity.
Qed.

(** X10. No exception reaches the top level: every run ends with
    process.exit(-1), with process.exit(0), or by returning with nothing
    pending. The status 0 of process.exit, the completion banner and the
    attempt to install the dependencies go together. *)
Theorem run_outcomes (w : World) (dir : option JSString)
  (fs0 : gmap JSString JSString) :
  ((run w dir fs0).1 = Exited (-1) ∨
   (run w dir fs0).1 = Exited 0 ∨
   (run w dir fs0).1 = Drained) ∧
  ((run w dir fs0).1 = Exited 0 ↔ printsBanner (trace (run w dir fs0).2)) ∧
  (printsBanner (trace (run w dir fs0).2) ↔
   EvExec (INSTALL_DEPENDENCIES (RUN_COMMAND dir)) ∈ trace (run w dir fs0).2).
Proof.
  all_runs dir.
  all: split; [first [left; reflexivity | right; left; reflexivity
                     | right; right; reflexivity]|].
  all: split; split; intros H; settle.
Qed.

(** X11. When the question is asked and the reply does not select the
    repository, no git command runs: the script prints that it skipped
    the step, installs the dependencies, prints the banner and exits
    with status 0. *)
Theorem skipped_repository_completes (w : World) (dir : option JSString)
  (fs0 : gmap JSString JSString) (answer : JSString)
  (rest : list JSString) :
  EvQuestion ∈ trace (run w dir fs0).2 →
  stdin_lines w = answer :: rest →
  shouldInitializeGit answer = false →
  (run w dir fs0).1 = Exited 0 ∧
  printsBanner (trace (run w dir fs0).2) ∧
  EvLog MsgGitSkipped ∈ trace (run w dir fs0).2 ∧
  commandsRun (trace (run w dir fs0).2) =
    [INSTALL_VITE_TS (RUN_COMMAND dir); INSTALL_TAILWIND (RUN_COMMAND dir);
     INITIALIZE_TAILWIND (RUN_COMMAND dir);
     INSTALL_DEPENDENCIES (RUN_COMMAND dir)].
Proof.
  intros Hq Hline Hno. all_runs dir.
  all: try solve [no_member Hq].
  all: try congruence.
  all: repeat split; settle.
Qed.

Lemma skipped_repository_completes_witness :
  let w := sampleWorld [] [js "n"] in
  (run w sampleDir ∅).1 = Exited 0 ∧
  printsBanner (trace (run w sampleDir ∅).2) ∧
  EvLog MsgGitSkipped ∈ trace (run w sampleDir ∅).2 ∧
  commandsRun (trace (run w sampleDir ∅).2) =
    [INSTALL_VITE_TS (RUN_COMMAND sampleDir);
     INSTALL_TAILWIND (RUN_COMMAND sampleDir);
     INITIALIZE_TAILWIND (RUN_COMMAND sampleDir);
     INSTALL_DEPENDENCIES (RUN_COMMAND sampleDir)].
Proof.
  intros w. apply (skipped_repository_completes w sampleDir ∅ (js "n") []).
  - vm_compute. find_member.
  - reflexivity.
  - reflexivity.
Defined.

(** X12. When the argument is not empty, all six commands succeed, the
    four file accesses succeed and the reply selects the repository, the
    whole table of commands is executed in its order, both patches are
    made, nothing is reported as an error, and the run ends with the
    banner and status 0. *)
Theorem complete_run (w : World) (dir : option JSString)
  (fs0 : gmap JSString JSString) :
  falsy dir = false →
  (∀ c, c ∈ commandTable dir → cmd_ok w c = true) →
  patchIoError w dir fs0 = false →
  answersYes w = true →
  (run w dir fs0).1 = Exited 0 ∧
  printsBanner (trace (run w dir fs0).2) ∧
  commandsRun (trace (run w dir fs0).2) = commandTable dir ∧
  List.filter isFileOp (trace (run w dir fs0).2) = patchAccesses w dir fs0 ∧
  List.filter isErrorReport (trace (run w dir fs0).2) = [].
Proof.
  intros Hdir Hok Hio Hyes.
  assert (cmd_ok w (INSTALL_VITE_TS (RUN_COMMAND dir)) = true) as H1
    by (apply Hok; unfold commandTable; find_member).
  assert (cmd_ok w (INSTALL_TAILWIND (RUN_COMMAND dir)) = true) as H2
    by (apply Hok; unfold commandTable; find_member).
  assert (cmd_ok w (INITIALIZE_TAILWIND (RUN_COMMAND dir)) = true) as H3
    by (apply Hok; unfold commandTable; find_member).
  assert (cmd_ok w (INITIALIZE_GIT (RUN_COMMAND dir)) = true) as H4
    by (apply Hok; unfold commandTable; find_member).
  assert (cmd_ok w (CHANGE_BRANCH (RUN_COMMAND dir)) = true) as H5
    by (apply Hok; unfold commandTable; find_member).
  assert (cmd_ok w (INSTALL_DEPENDENCIES (RUN_COMMAND dir)) = true) as H6
    by (apply Hok; unfold commandTable; find_member).
  clear Hok.
  unfold patchAccesses, contentAt, commandTable.
  unfold patchIoError, missing, setupFiles, answersYes in *.
  all_runs dir.
  all: try discriminate.
  all: simplify_eq.
  all: repeat split; settle.
Qed.

Lemma complete_run_witness :
  let w := sampleWorld [] [js "y"] in
  (run w sampleDir ∅).1 = Exited 0 ∧
  printsBanner (trace (run w sampleDir ∅).2) ∧
  commandsRun (trace (run w sampleDir ∅).2) = commandTable sampleDir ∧
  List.filter isFileOp (trace (run w sampleDir ∅).2) =
    patchAccesses w sampleDir ∅ ∧
  List.filter isErrorReport (trace (run w sampleDir ∅).2) = [].
Proof.
  intros w. apply (complete_run w sampleDir ∅).
  - reflexivity.
  - intros c _. reflexivity.
  - vm_compute. reflexivity.
  - reflexivity.
Defined.

(** X13. The only validation is the test for a missing or empty name:
    every other argument, a name made of spaces included, starts the
    setup, and the first thing the script does then is to create the
    project. *)
Theorem nonempty_argument_starts_setup (w : World) (dir : option JSString)
  (fs0 : gmap JSString JSString) :
  (EvExec (INSTALL_VITE_TS (RUN_COMMAND dir)) ∈ trace (run w dir fs0).2 ↔
   falsy dir = false) ∧
  (falsy dir = false ↔
   take 3 (trace (run w dir fs0).2) =
     [EvCreateInterface; EvLog MsgCreating;
      EvExec (INSTALL_VITE_TS (RUN_COMMAND dir))]) ∧
  falsy (Some (js " ")) = false.
Proof.
  all_runs dir.
  all: split; [|split; [|reflexivity]].
  all: split; intros H; settle.
Qed.

(** X14. The repository is initialized exactly when the argument is not
    empty, the styling configuration was initialized, the four file
    accesses succeeded and the first reply selects it; the branch is
    renamed exactly when, in addition, the initialization succeeded. *)
Theorem repository_commands_iff (w : World) (dir : option JSString)
  (fs0 : gmap JSString JSString) :
  (EvExec (INITIALIZE_GIT (RUN_COMMAND dir)) ∈ trace (run w dir fs0).2 ↔
   falsy dir = false ∧
   cmd_ok w (INITIALIZE_TAILWIND (RUN_COMMAND dir)) = true ∧
   patchIoError w dir fs0 = false ∧
   answersYes w = true) ∧
  (EvExec (CHANGE_BRANCH (RUN_COMMAND dir)) ∈ trace (run w dir fs0).2 ↔
   EvExec (INITIALIZE_GIT (RUN_COMMAND dir)) ∈ trace (run w dir fs0).2 ∧
   cmd_ok w (INITIALIZE_GIT (RUN_COMMAND dir)) = true).
Proof.
  unfold patchIoError, missing, setupFiles, answersYes. all_runs dir.
  all: split; split; intros H; settle.
  all: try (destruct H as [H ?]; settle).
  all: try (split; settle).
Qed.

(** X15. The line reader is created once, after the argument has been
    checked, asks one question at most and is closed at most once: it is
    closed exactly when the question was asked and a reply arrived. *)
Theorem interface_lifecycle (w : World) (dir : option JSString)
  (fs0 : gmap JSString JSString) :
  (length (List.filter isClose (trace (run w dir fs0).2)) ≤
   length (List.filter isQuestion (trace (run w dir fs0).2)))%nat ∧
  (length (List.filter isQuestion (trace (run w dir fs0).2)) ≤
   length (List.filter isCreateInterface (trace (run w dir fs0).2)))%nat ∧
  length (List.filter isCreateInterface (trace (run w dir fs0).2)) =
    (if falsy dir then 0 else 1)%nat ∧
  (EvClose ∈ trace (run w dir fs0).2 ↔
   EvQuestion ∈ trace (run w dir fs0).2 ∧ stdin_lines w ≠ []).
Proof.
  all_runs dir.
  all: split; [lia|]; split; [lia|]; split; [reflexivity|].
  all: split; intros H; settle.
  all: try (destruct H as [H ?]; settle).
  all: try (split; settle).
Qed.

(** X16. Every failure of a command is reported and nothing else is: in
    every run, the failure message for a command line is printed exactly
    when that command line was executed and failed. *)
Theorem failures_are_reported (w : World) (dir : option JSString)
  (fs0 : gmap JSString JSString) (c : JSString) :
  failureReport c ∈ trace (run w dir fs0).2 ↔
  c ∈ commandsRun (trace (run w dir fs0).2) ∧ cmd_ok w c = false.
Proof.
  unfold failureReport. all_runs dir.
  all: split;
    [ intros H;
      repeat (apply elem_of_cons in H as [H|H];
              [first [discriminate H
                     | apply MsgFailedExec_inj in H; subst c;
                       split; [solve [find_member] | assumption]]|]);
      apply elem_of_nil in H; destruct H
    | intros [H Hc];
      repeat (apply elem_of_cons in H as [H|H];
              [subst c; first [congruence | solve [find_member]]|]);
      apply elem_of_nil in H; destruct H ].
Qed.
